(** * GameClient: a shallow embedding of the browser game client

    The development follows [src/game.js] (the current revision of the
    client) and [src/unnamed/part_000] (an earlier revision without the
    player map and without keyboard input).

    Modelling conventions.
    - JavaScript numbers are exact rationals ([Q]); [Math.max] and
      [Math.min] are [Qmax] and [Qmin].  Numeric equality is [==].
    - JavaScript objects used as dictionaries ([allPlayers], [avatars],
      [frames], the [players] payload) are [gmap string _].
    - The [Set] of held keys is a list in insertion order.
    - Every method is a function from the client state to a new client
      state and the list of effects it performed, oldest first. *)

From Stdlib Require Import QArith Qminmax Lqa.
From stdpp Require Import base option list strings gmap.

Local Open Scope string_scope.
Local Open Scope list_scope.

(** ** Data received from the server *)

Record Player := mkPlayer {
  p_id : string;
  p_x : Q;
  p_y : Q;
  p_facing : string;
  p_animationFrame : option nat;
  p_username : string;
  p_avatar : string
}.

Record AvatarData := mkAvatar {
  a_name : string;
  a_frames : gmap string (list string)
}.

Record Canvas := mkCanvas { width : Q; height : Q }.

(** [WebSocket.readyState] *)
Inductive ReadyState := CONNECTING | OPEN | CLOSING | CLOSED.

Inductive Direction := up | down | left | right.

#[global] Instance ReadyState_eq_dec : EqDecision ReadyState.
Proof. solve_decision. Defined.

#[global] Instance Direction_eq_dec : EqDecision Direction.
Proof. solve_decision. Defined.

(** ** The earlier revision, [src/unnamed/part_000] *)
Module Part000.

Record GameClient := mkClient {
  canvas : Canvas;
  worldImage : bool;
  worldWidth : Q;
  worldHeight : Q;
  myPlayerId : option string;
  myPlayer : option Player;
  avatars : gmap string AvatarData;
  viewportX : Q;
  viewportY : Q;
  ws : option ReadyState
}.

Definition set_viewport (vx vy : Q) (c : GameClient) : GameClient :=
  {| canvas := canvas c; worldImage := worldImage c;
     worldWidth := worldWidth c; worldHeight := worldHeight c;
     myPlayerId := myPlayerId c; myPlayer := myPlayer c;
     avatars := avatars c;
     viewportX := vx; viewportY := vy; ws := ws c |}.

Definition updateViewport (c : GameClient) : GameClient :=
  match myPlayer c with
  | None => c
  | Some me =>
      let centerX := (width (canvas c) / 2)%Q in
      let centerY := (height (canvas c) / 2)%Q in
      let newViewportX := (p_x me - centerX)%Q in
      let newViewportY := (p_y me - centerY)%Q in
      let newViewportX :=
        Qmax 0 (Qmin newViewportX (worldWidth c - width (canvas c))) in
      let newViewportY :=
        Qmax 0 (Qmin newViewportY (worldHeight c - height (canvas c))) in
      set_viewport newViewportX newViewportY c
  end.

End Part000.

(** ** The current revision, [src/game.js] *)

Record GameClient := mkClient {
  canvas : Canvas;
  worldImage : bool;
  worldWidth : Q;
  worldHeight : Q;
  myPlayerId : option string;
  myPlayer : option Player;
  allPlayers : gmap string Player;
  avatars : gmap string AvatarData;
  viewportX : Q;
  viewportY : Q;
  activeKeys : list string;
  currentDirection : option Direction;
  ws : option ReadyState
}.

Definition set_viewport (vx vy : Q) (c : GameClient) : GameClient :=
  {| canvas := canvas c; worldImage := worldImage c;
     worldWidth := worldWidth c; worldHeight := worldHeight c;
     myPlayerId := myPlayerId c; myPlayer := myPlayer c;
     allPlayers := allPlayers c; avatars := avatars c;
     viewportX := vx; viewportY := vy;
     activeKeys := activeKeys c; currentDirection := currentDirection c;
     ws := ws c |}.

Definition updateViewport (c : GameClient) : GameClient :=
  match myPlayer c with
  | None => c
  | Some me =>
      let centerX := (width (canvas c) / 2)%Q in
      let centerY := (height (canvas c) / 2)%Q in
      let newViewportX := (p_x me - centerX)%Q in
      let newViewportY := (p_y me - centerY)%Q in
      let newViewportX :=
        Qmax 0 (Qmin newViewportX (worldWidth c - width (canvas c))) in
      let newViewportY :=
        Qmax 0 (Qmin newViewportY (worldHeight c - height (canvas c))) in
      set_viewport newViewportX newViewportY c
  end.

(** Field updates ([this.f = v]). *)
Definition set_canvas (v : Canvas) (c : GameClient) : GameClient :=
  {| canvas := v; worldImage := worldImage c;
     worldWidth := worldWidth c; worldHeight := worldHeight c;
     myPlayerId := myPlayerId c; myPlayer := myPlayer c;
     allPlayers := allPlayers c; avatars := avatars c;
     viewportX := viewportX c; viewportY := viewportY c;
     activeKeys := activeKeys c; currentDirection := currentDirection c;
     ws := ws c |}.

Definition set_myPlayerId (v : option string) (c : GameClient) : GameClient :=
  {| canvas := canvas c; worldImage := worldImage c;
     worldWidth := worldWidth c; worldHeight := worldHeight c;
     myPlayerId := v; myPlayer := myPlayer c;
     allPlayers := allPlayers c; avatars := avatars c;
     viewportX := viewportX c; viewportY := viewportY c;
     activeKeys := activeKeys c; currentDirection := currentDirection c;
     ws := ws c |}.

Definition set_myPlayer (v : option Player) (c : GameClient) : GameClient :=
  {| canvas := canvas c; worldImage := worldImage c;
     worldWidth := worldWidth c; worldHeight := worldHeight c;
     myPlayerId := myPlayerId c; myPlayer := v;
     allPlayers := allPlayers c; avatars := avatars c;
     viewportX := viewportX c; viewportY := viewportY c;
     activeKeys := activeKeys c; currentDirection := currentDirection c;
     ws := ws c |}.

Definition set_allPlayers (v : gmap string Player) (c : GameClient)
  : GameClient :=
  {| canvas := canvas c; worldImage := worldImage c;
     worldWidth := worldWidth c; worldHeight := worldHeight c;
     myPlayerId := myPlayerId c; myPlayer := myPlayer c;
     allPlayers := v; avatars := avatars c;
     viewportX := viewportX c; viewportY := viewportY c;
     activeKeys := activeKeys c; currentDirection := currentDirection c;
     ws := ws c |}.

Definition set_avatars (v : gmap string AvatarData) (c : GameClient)
  : GameClient :=
  {| canvas := canvas c; worldImage := worldImage c;
     worldWidth := worldWidth c; worldHeight := worldHeight c;
     myPlayerId := myPlayerId c; myPlayer := myPlayer c;
     allPlayers := allPlayers c; avatars := v;
     viewportX := viewportX c; viewportY := viewportY c;
     activeKeys := activeKeys c; currentDirection := currentDirection c;
     ws := ws c |}.

Definition set_activeKeys (v : list string) (c : GameClient) : GameClient :=
  {| canvas := canvas c; worldImage := worldImage c;
     worldWidth := worldWidth c; worldHeight := worldHeight c;
     myPlayerId := myPlayerId c; myPlayer := myPlayer c;
     allPlayers := allPlayers c; avatars := avatars c;
     viewportX := viewportX c; viewportY := viewportY c;
     activeKeys := v; currentDirection := currentDirection c;
     ws := ws c |}.

Definition set_currentDirection (v : option Direction) (c : GameClient)
  : GameClient :=
  {| canvas := canvas c; worldImage := worldImage c;
     worldWidth := worldWidth c; worldHeight := worldHeight c;
     myPlayerId := myPlayerId c; myPlayer := myPlayer c;
     allPlayers := allPlayers c; avatars := avatars c;
     viewportX := viewportX c; viewportY := viewportY c;
     activeKeys := activeKeys c; currentDirection := v;
     ws := ws c |}.

Definition set_ws (v : option ReadyState) (c : GameClient) : GameClient :=
  {| canvas := canvas c; worldImage := worldImage c;
     worldWidth := worldWidth c; worldHeight := worldHeight c;
     myPlayerId := myPlayerId c; myPlayer := myPlayer c;
     allPlayers := allPlayers c; avatars := avatars c;
     viewportX := viewportX c; viewportY := viewportY c;
     activeKeys := activeKeys c; currentDirection := currentDirection c;
     ws := v |}.

(** ** Effects

    What a method does besides changing the client: the messages written
    to the socket, the console output, the canvas operations.  Entering
    [sendMoveCommand], [sendStopCommand] or [draw] is recorded as well:
    these entries are the move intents, stop intents and redraws. *)

Inductive OutMessage :=
| MsgJoinGame (username : string)
| MsgMove (direction : option Direction)
| MsgStop.

Inductive Effect :=
| CallSendMoveCommand (direction : option Direction)
| CallSendStopCommand
| WsSend (m : OutMessage)
| CallDraw
| ClearRect (x y w h : Q)
| DrawWorld (sx sy sw sh dx dy dw dh : Q)
| NewImage (src : string) (mirrored : bool) (avatarX avatarY : Q)
           (username : string)
| ConsoleLog (text : string)
| ConsoleError (text detail : string).

(** Messages parsed from the socket, by [action]. *)
Inductive Message :=
| join_game (success : bool) (playerId : string)
            (avatars : gmap string AvatarData)
            (players : gmap string Player) (error : string)
| players_moved (players : gmap string (option Player))
| player_joined (player : Player) (avatar : AvatarData)
| player_left (playerId : string)
| other_action (action : string).

(** ** Keyboard input *)

Definition isArrowKey (code : string) : bool :=
  bool_decide (code ∈ ["ArrowUp"; "ArrowDown"; "ArrowLeft"; "ArrowRight"]).

(** The [keyToDirection] table. The listeners pass on arrow codes only;
    every other code is taken to have no entry. *)
Definition getDirectionFromKey (code : string) : option Direction :=
  if String.eqb code "ArrowUp" then Some up
  else if String.eqb code "ArrowDown" then Some down
  else if String.eqb code "ArrowLeft" then Some left
  else if String.eqb code "ArrowRight" then Some right
  else None.

(** [Set.prototype.add] and [Set.prototype.delete] on an insertion-ordered
    set: adding a member again keeps its place. *)
Definition Set_add (k : string) (s : list string) : list string :=
  if decide (k ∈ s) then s else s ++ [k].

Definition Set_delete (k : string) (s : list string) : list string :=
  filter (λ x, x ≠ k) s.

(** [this.ws && this.ws.readyState === WebSocket.OPEN] *)
Definition wsOpen (c : GameClient) : bool :=
  match ws c with
  | Some OPEN => true
  | _ => false
  end.

Definition sendMoveCommand (c : GameClient) (direction : option Direction)
  : list Effect :=
  CallSendMoveCommand direction ::
  (if negb (wsOpen c) then [] else [WsSend (MsgMove direction)]).

Definition sendStopCommand (c : GameClient) : list Effect :=
  CallSendStopCommand ::
  (if negb (wsOpen c) then [] else [WsSend MsgStop]).

Definition handleKeyDown (c : GameClient) (keyCode : string)
  : GameClient * list Effect :=
  if negb (wsOpen c) then (c, [])
  else
    match getDirectionFromKey keyCode with
    | Some direction =>
        let c := set_activeKeys (Set_add keyCode (activeKeys c)) c in
        let c := set_currentDirection (Some direction) c in
        (c, sendMoveCommand c (Some direction))
    | None => (c, [])
    end.

Definition handleKeyUp (c : GameClient) (keyCode : string)
  : GameClient * list Effect :=
  let c := set_activeKeys (Set_delete keyCode (activeKeys c)) c in
  if Nat.eqb (length (activeKeys c)) 0 then
    let c := set_currentDirection None c in
    (c, sendStopCommand c)
  else
    let remainingKeys := activeKeys c in
    let lastKey := last remainingKeys in
    let c := set_currentDirection (lastKey ≫= getDirectionFromKey) c in
    (c, sendMoveCommand c (currentDirection c)).

(** ** Rendering *)

Definition Qltb (a b : Q) : bool := negb (Qle_bool b a).

(** A string is truthy unless it is empty. *)
Definition truthy (s : string) : bool := negb (String.eqb s EmptyString).

(** [drawAvatar] up to the point where the frame image is requested.
    The image is created only when a frame was selected; [NewImage]
    carries its [src] and what the [onload] closure captured. *)
Definition drawAvatar (c : GameClient) (player : Player)
  (avatarData : AvatarData) : list Effect :=
  let avatarX := (p_x player - viewportX c)%Q in
  let avatarY := (p_y player - viewportY c)%Q in
  if Qltb avatarX (-50) || Qltb (width (canvas c) + 50) avatarX ||
     Qltb avatarY (-50) || Qltb (height (canvas c) + 50) avatarY
  then []
  else
    let direction := p_facing player in
    let frameIndex := default 0%nat (p_animationFrame player) in
    let frames := a_frames avatarData !! direction in
    let frames :=
      if String.eqb direction "west" then a_frames avatarData !! "east"
      else frames in
    match frames with
    | Some fs =>
        match fs !! frameIndex with
        | Some src =>
            if truthy src then
              [NewImage src (String.eqb direction "west") avatarX avatarY
                 (p_username player)]
            else []
        | None => []
        end
    | None => []
    end.

(** [draw]: the other players are visited in the enumeration order of
    the map. *)
Definition draw (c : GameClient) : list Effect :=
  CallDraw ::
  (if negb (worldImage c) then []
   else
     ClearRect 0 0 (width (canvas c)) (height (canvas c)) ::
     DrawWorld (viewportX c) (viewportY c)
       (width (canvas c)) (height (canvas c))
       0 0 (width (canvas c)) (height (canvas c)) ::
     flat_map
       (λ entry : string * Player,
          let player := entry.2 in
          if decide (Some (p_id player) ≠ myPlayerId c) then
            match avatars c !! p_avatar player with
            | Some avatarData => drawAvatar c player avatarData
            | None => []
            end
          else [])
       (map_to_list (allPlayers c)) ++
     match myPlayer c with
     | Some me =>
         match avatars c !! p_avatar me with
         | Some avatarData => drawAvatar c me avatarData
         | None => []
         end
     | None => []
     end).

(** ** Messages from the server *)

(** One iteration of the [forEach] over the keys of a [players_moved]
    payload; a [null] entry is [None]. *)
Definition playersMovedStep (c : GameClient)
  (entry : string * option Player) : GameClient :=
  let playerId := entry.1 in
  match entry.2 with
  | Some p =>
      let c := set_allPlayers (<[playerId := p]> (allPlayers c)) c in
      if decide (Some playerId = myPlayerId c) then
        let c := set_myPlayer (Some p) c in
        updateViewport c
      else c
  | None => c
  end.

Definition handleServerMessage (c : GameClient) (message : Message)
  : GameClient * list Effect :=
  match message with
  | join_game success playerId avatars players error =>
      if success then
        let c := set_myPlayerId (Some playerId) c in
        let c := set_avatars avatars c in
        let c := set_allPlayers players c in
        let c := set_myPlayer (players !! playerId) c in
        let c := updateViewport c in
        (c, draw c ++ [ConsoleLog "Joined game successfully!"])
      else (c, [ConsoleError "Failed to join game:" error])
  | players_moved players =>
      let c := foldl playersMovedStep c (map_to_list players) in
      (c, draw c)
  | player_joined player avatar =>
      let c := set_allPlayers (<[p_id player := player]> (allPlayers c)) c in
      let c := set_avatars (<[a_name avatar := avatar]> (avatars c)) c in
      (c, draw c)
  | player_left playerId =>
      let c := set_allPlayers (delete playerId (allPlayers c)) c in
      (c, draw c)
  | other_action _ => (c, [])
  end.

(** ** The event loop *)

Definition joinGame (c : GameClient) : list Effect :=
  [WsSend (MsgJoinGame "Joe")].

(** [connectToServer] installs a fresh socket, which starts connecting. *)
Definition connectToServer (c : GameClient) : GameClient :=
  set_ws (Some CONNECTING) c.

(** The state the constructor leaves behind for a window of the given
    inner size. *)
Definition newGameClient (innerWidth innerHeight : Q) : GameClient :=
  {| canvas := mkCanvas innerWidth innerHeight; worldImage := true;
     worldWidth := 2048; worldHeight := 2048;
     myPlayerId := None; myPlayer := None;
     allPlayers := ∅; avatars := ∅;
     viewportX := 0; viewportY := 0;
     activeKeys := []; currentDirection := None;
     ws := Some CONNECTING |}.

(** Events delivered by the browser, one at a time. *)
Inductive Event :=
| keydown (code : string)
| keyup (code : string)
| resize (innerWidth innerHeight : Q)
| worldImage_onload
| ws_onopen
| ws_onmessage (message : Message)
| ws_onerror (error : string)
| ws_onclose
| reconnect_timer.

Definition dispatch (c : GameClient) (e : Event) : GameClient * list Effect :=
  match e with
  | keydown code => if isArrowKey code then handleKeyDown c code else (c, [])
  | keyup code => if isArrowKey code then handleKeyUp c code else (c, [])
  | resize w h =>
      let c := set_canvas (mkCanvas w h) c in
      let c := updateViewport c in
      (c, draw c)
  | worldImage_onload => (c, draw c)
  | ws_onopen =>
      let c := set_ws (Some OPEN) c in
      (c, ConsoleLog "Connected to game server" :: joinGame c)
  | ws_onmessage message => handleServerMessage c message
  | ws_onerror error => (c, [ConsoleError "WebSocket error:" error])
  | ws_onclose =>
      (set_ws (Some CLOSED) c, [ConsoleLog "Disconnected from server"])
  | reconnect_timer => (connectToServer c, [])
  end.

Fixpoint run (c : GameClient) (es : list Event) : GameClient * list Effect :=
  match es with
  | [] => (c, [])
  | e :: es =>
      let '(c1, out1) := dispatch c e in
      let '(c2, out2) := run c1 es in
      (c2, out1 ++ out2)
  end.

(** ** Counting effects *)

Definition isStopIntent (e : Effect) : bool :=
  match e with CallSendStopCommand => true | _ => false end.

Definition isMoveIntent (e : Effect) : bool :=
  match e with CallSendMoveCommand _ => true | _ => false end.

Definition isRedraw (e : Effect) : bool :=
  match e with CallDraw => true | _ => false end.

Definition count (f : Effect → bool) (out : list Effect) : nat :=
  length (List.filter f out).


(** Number of steps of a run at which the held-key set goes from
    non-empty to empty. *)
Fixpoint transitionsToEmpty (c : GameClient) (es : list Event) : nat :=
  match es with
  | [] => 0
  | e :: es =>
      let c1 := (dispatch c e).1 in
      ((if bool_decide (activeKeys c ≠ []) && bool_decide (activeKeys c1 = [])
        then 1 else 0) + transitionsToEmpty c1 es)%nat
  end.

(** Number of releases of an arrow key in a run after which no key is
    held. *)
Fixpoint releasesLeavingEmpty (c : GameClient) (es : list Event) : nat :=
  match es with
  | [] => 0
  | e :: es =>
      let c1 := (dispatch c e).1 in
      ((match e with
        | keyup code =>
            if isArrowKey code && bool_decide (activeKeys c1 = [])
            then 1 else 0
        | _ => 0
        end) + releasesLeavingEmpty c1 es)%nat
  end.

Definition isSuccessfulJoin (message : Message) : bool :=
  match message with
  | join_game success _ _ _ _ => success
  | _ => false
  end.

(** ** Sample data *)

Definition samplePlayer : Player :=
  {| p_id := "p1"; p_x := 1000; p_y := 1000; p_facing := "south";
     p_animationFrame := None; p_username := "Joe"; p_avatar := "knight" |}.

Definition westPlayer : Player :=
  {| p_id := "p2"; p_x := 100; p_y := 100; p_facing := "west";
     p_animationFrame := Some 1%nat; p_username := "Ann";
     p_avatar := "knight" |}.

Definition sampleAvatar : AvatarData :=
  {| a_name := "knight";
     a_frames := {[ "east" := ["e0.png"; "e1.png"];
                    "west" := ["w0.png"; "w1.png"];
                    "south" := ["s0.png"] ]} |}.

Definition sampleClient : GameClient :=
  set_myPlayer (Some samplePlayer) (newGameClient 800 600).

Definition sampleClient000 : Part000.GameClient :=
  {| Part000.canvas := mkCanvas 800 600; Part000.worldImage := true;
     Part000.worldWidth := 2048; Part000.worldHeight := 2048;
     Part000.myPlayerId := None; Part000.myPlayer := Some samplePlayer;
     Part000.avatars := ∅;
     Part000.viewportX := 0; Part000.viewportY := 0;
     Part000.ws := Some CONNECTING |}.

(** A connected client, before and after the server accepted the join. *)
Definition connectedClient : GameClient :=
  (dispatch (newGameClient 800 600) ws_onopen).1.

Definition joinedClient : GameClient :=
  (handleServerMessage connectedClient
     (join_game true "p1" {[ "knight" := sampleAvatar ]}
        {[ "p1" := samplePlayer; "p2" := westPlayer ]} EmptyString)).1.

(** A payload that moves ["p1"], carries [null] for ["p2"] and does not
    mention ["p7"]. *)
Definition samplePayload : gmap string (option Player) :=
  {[ "p2" := None; "p1" := Some westPlayer ]}.

(** A second accepted join, as after a reconnect. *)
Definition rejoinMessage : Message :=
  join_game true "p9" {[ "knight" := sampleAvatar ]}
    {[ "p9" := samplePlayer ]} EmptyString.

(** Up is held, and Up then Left are held, on an open channel. *)
Definition upHeldClient : GameClient :=
  (run (newGameClient 800 600) [ws_onopen; keydown "ArrowUp"]).1.

Definition upLeftHeldClient : GameClient :=
  (run (newGameClient 800 600)
     [ws_onopen; keydown "ArrowUp"; keydown "ArrowLeft"]).1.

(** Up is pressed while the socket is still connecting and released once
    it is open. *)
Definition earlyPress : list Event :=
  [keydown "ArrowUp"; ws_onopen; keyup "ArrowUp"].


(** ** The [onload] handler of an avatar image

    What [drawAvatar] leaves to the image's [onload]: sizing the frame
    into a 32 by 32 box and painting it with the player's name above.
    The handler closes over the [NewImage] fields; [imgWidth] and
    [imgHeight] are the loaded image's [width] and [height]. *)

Inductive CanvasOp :=
| Save
| Restore
| Scale (sx sy : Q)
| DrawImage (src : string) (x y w h : Q)
| SetFillStyle (style : string)
| SetStrokeStyle (style : string)
| SetLineWidth (w : Q)
| SetFont (font : string)
| SetTextAlign (align : string)
| StrokeText (text : string) (x y : Q)
| FillText (text : string) (x y : Q).

Definition avatarOnload (src : string) (mirrored : bool)
  (avatarX avatarY : Q) (username : string) (imgWidth imgHeight : Q)
  : list CanvasOp :=
  let maxSize := 32%Q in
  let aspectRatio := (imgWidth / imgHeight)%Q in
  let avatarWidth := maxSize in
  let avatarHeight := (maxSize / aspectRatio)%Q in
  let '(avatarWidth, avatarHeight) :=
    if Qltb aspectRatio 1 then ((maxSize * aspectRatio)%Q, maxSize)
    else (avatarWidth, avatarHeight) in
  [Save] ++
  (if mirrored then
     [Scale (-1) 1;
      DrawImage src (- avatarX - avatarWidth / 2)%Q
        (avatarY - avatarHeight / 2)%Q avatarWidth avatarHeight]
   else
     [DrawImage src (avatarX - avatarWidth / 2)%Q
        (avatarY - avatarHeight / 2)%Q avatarWidth avatarHeight]) ++
  let labelY := (avatarY - avatarHeight / 2 - 5)%Q in
  [Restore;
   SetFillStyle "white"; SetStrokeStyle "black"; SetLineWidth 2;
   SetFont "12px Arial"; SetTextAlign "center";
   StrokeText username avatarX labelY;
   FillText username avatarX labelY].

(** The [onload] of the image an effect created, if it created one. *)
Definition onload (e : Effect) (imgWidth imgHeight : Q) : list CanvasOp :=
  match e with
  | NewImage src mirrored avatarX avatarY username =>
      avatarOnload src mirrored avatarX avatarY username imgWidth imgHeight
  | _ => []
  end.

(** What the canvas shows for a list of operations. Of the canvas state
    only the scale factors matter here: [scale] multiplies them, [save]
    pushes them and [restore] pops them (and does nothing on an empty
    stack). An image is recorded by the screen coordinates of its left,
    right, top and bottom edges, a text by its anchor and by whether it is
    painted mirrored. *)
Inductive Painted :=
| PaintedImage (src : string) (x1 x2 y1 y2 : Q)
| PaintedStroke (text : string) (x y : Q) (flipped : bool)
| PaintedFill (text : string) (x y : Q) (flipped : bool).

Fixpoint paint (stack : list (Q * Q)) (cur : Q * Q) (ops : list CanvasOp)
  : list Painted :=
  match ops with
  | [] => []
  | Save :: ops => paint (cur :: stack) cur ops
  | Restore :: ops =>
      match stack with
      | saved :: stack => paint stack saved ops
      | [] => paint [] cur ops
      end
  | Scale sx sy :: ops => paint stack ((cur.1 * sx)%Q, (cur.2 * sy)%Q) ops
  | DrawImage src x y w h :: ops =>
      PaintedImage src (cur.1 * x)%Q (cur.1 * (x + w))%Q
        (cur.2 * y)%Q (cur.2 * (y + h))%Q :: paint stack cur ops
  | StrokeText text x y :: ops =>
      PaintedStroke text (cur.1 * x)%Q (cur.2 * y)%Q (Qltb cur.1 0)
      :: paint stack cur ops
  | FillText text x y :: ops =>
      PaintedFill text (cur.1 * x)%Q (cur.2 * y)%Q (Qltb cur.1 0)
      :: paint stack cur ops
  | _ :: ops => paint stack cur ops
  end.

(** ** Message handling and drawing in [src/unnamed/part_000] *)
Module Part000Handlers.

Definition set_myPlayerId (v : option string) (c : Part000.GameClient)
  : Part000.GameClient :=
  {| Part000.canvas := Part000.canvas c;
     Part000.worldImage := Part000.worldImage c;
     Part000.worldWidth := Part000.worldWidth c;
     Part000.worldHeight := Part000.worldHeight c;
     Part000.myPlayerId := v; Part000.myPlayer := Part000.myPlayer c;
     Part000.avatars := Part000.avatars c;
     Part000.viewportX := Part000.viewportX c;
     Part000.viewportY := Part000.viewportY c;
     Part000.ws := Part000.ws c |}.

Definition set_myPlayer (v : option Player) (c : Part000.GameClient)
  : Part000.GameClient :=
  {| Part000.canvas := Part000.canvas c;
     Part000.worldImage := Part000.worldImage c;
     Part000.worldWidth := Part000.worldWidth c;
     Part000.worldHeight := Part000.worldHeight c;
     Part000.myPlayerId := Part000.myPlayerId c; Part000.myPlayer := v;
     Part000.avatars := Part000.avatars c;
     Part000.viewportX := Part000.viewportX c;
     Part000.viewportY := Part000.viewportY c;
     Part000.ws := Part000.ws c |}.

Definition set_avatars (v : gmap string AvatarData) (c : Part000.GameClient)
  : Part000.GameClient :=
  {| Part000.canvas := Part000.canvas c;
     Part000.worldImage := Part000.worldImage c;
     Part000.worldWidth := Part000.worldWidth c;
     Part000.worldHeight := Part000.worldHeight c;
     Part000.myPlayerId := Part000.myPlayerId c;
     Part000.myPlayer := Part000.myPlayer c;
     Part000.avatars := v;
     Part000.viewportX := Part000.viewportX c;
     Part000.viewportY := Part000.viewportY c;
     Part000.ws := Part000.ws c |}.

Definition drawAvatar (c : Part000.GameClient) (player : Player)
  (avatarData : AvatarData) : list Effect :=
  let avatarX := (p_x player - Part000.viewportX c)%Q in
  let avatarY := (p_y player - Part000.viewportY c)%Q in
  if Qltb avatarX (-50) ||
     Qltb (width (Part000.canvas c) + 50) avatarX ||
     Qltb avatarY (-50) ||
     Qltb (height (Part000.canvas c) + 50) avatarY
  then []
  else
    let direction := p_facing player in
    let frameIndex := default 0%nat (p_animationFrame player) in
    let frames := a_frames avatarData !! direction in
    let frames :=
      if String.eqb direction "west" then a_frames avatarData !! "east"
      else frames in
    match frames with
    | Some fs =>
        match fs !! frameIndex with
        | Some src =>
            if truthy src then
              [NewImage src (String.eqb direction "west") avatarX avatarY
                 (p_username player)]
            else []
        | None => []
        end
    | None => []
    end.

Definition draw (c : Part000.GameClient) : list Effect :=
  CallDraw ::
  (if negb (Part000.worldImage c) then []
   else
     ClearRect 0 0 (width (Part000.canvas c)) (height (Part000.canvas c)) ::
     DrawWorld (Part000.viewportX c) (Part000.viewportY c)
       (width (Part000.canvas c)) (height (Part000.canvas c))
       0 0 (width (Part000.canvas c)) (height (Part000.canvas c)) ::
     match Part000.myPlayer c with
     | Some me =>
         match Part000.avatars c !! p_avatar me with
         | Some avatarData => drawAvatar c me avatarData
         | None => []
         end
     | None => []
     end).

Definition playersMovedStep (c : Part000.GameClient)
  (entry : string * option Player) : Part000.GameClient :=
  let playerId := entry.1 in
  match entry.2 with
  | Some p =>
      if decide (Some playerId = Part000.myPlayerId c) then
        let c := set_myPlayer (Some p) c in
        Part000.updateViewport c
      else c
  | None => c
  end.

Definition handleServerMessage (c : Part000.GameClient) (message : Message)
  : Part000.GameClient * list Effect :=
  match message with
  | join_game success playerId avatars players error =>
      if success then
        let c := set_myPlayerId (Some playerId) c in
        let c := set_avatars avatars c in
        let c := set_myPlayer (players !! playerId) c in
        let c := Part000.updateViewport c in
        (c, draw c ++ [ConsoleLog "Joined game successfully!"])
      else (c, [ConsoleError "Failed to join game:" error])
  | players_moved players =>
      let c := foldl playersMovedStep c (map_to_list players) in
      (c, draw c)
  | player_joined player avatar =>
      let c :=
        set_avatars (<[a_name avatar := avatar]> (Part000.avatars c)) c in
      (c, draw c)
  | player_left playerId => (c, draw c)
  | other_action _ => (c, [])
  end.

End Part000Handlers.

(** The part of the current client that the earlier revision has too. *)
Definition forget (c : GameClient) : Part000.GameClient :=
  {| Part000.canvas := canvas c; Part000.worldImage := worldImage c;
     Part000.worldWidth := worldWidth c;
     Part000.worldHeight := worldHeight c;
     Part000.myPlayerId := myPlayerId c; Part000.myPlayer := myPlayer c;
     Part000.avatars := avatars c;
     Part000.viewportX := viewportX c; Part000.viewportY := viewportY c;
     Part000.ws := ws c |}.

(** ** More effect classes and state predicates *)

Definition isWsSend (e : Effect) : bool :=
  match e with WsSend _ => true | _ => false end.

Definition isNewImage (e : Effect) : bool :=
  match e with NewImage _ _ _ _ _ => true | _ => false end.

(** [this.myPlayer] is the entry of the player map at the local id. *)
Definition localEntryInSync (c : GameClient) : Prop :=
  myPlayer c = myPlayerId c ≫= (allPlayers c !!.).

Definition isJoinRequest (e : Effect) : bool :=
  match e with WsSend (MsgJoinGame _) => true | _ => false end.

(** Number of times the socket opened during a list of events. *)
Definition opens (es : list Event) : nat :=
  length (List.filter
            (λ e, match e with ws_onopen => true | _ => false end) es).

(** A move intent or a move message without a direction. *)
Definition isUndirectedMove (e : Effect) : bool :=
  match e with
  | CallSendMoveCommand None => true
  | WsSend (MsgMove None) => true
  | _ => false
  end.

(** The held keys form a set of arrow codes, and the current direction is
    the direction of a held key, or null when no key is held. *)
Definition inputWellFormed (c : GameClient) : Prop :=
  NoDup (activeKeys c) ∧
  Forall (λ k, isArrowKey k = true) (activeKeys c) ∧
  (activeKeys c = [] ↔ currentDirection c = None) ∧
  (∀ d, currentDirection c = Some d →
        ∃ k, k ∈ activeKeys c ∧ getDirectionFromKey k = Some d).

(** A 64 by 32 image, as loaded for a frame. *)
Definition sampleOnload : list CanvasOp :=
  avatarOnload "e1.png" true 100 100 "Ann" 64 32.


(** * Properties *)

(** ** Viewport *)

Section Clamp.
Local Open Scope Q_scope.

Lemma clamp_nonneg (v hi : Q) : 0 <= Qmax 0 (Qmin v hi).
Proof. apply Q.le_max_l. Qed.

Lemma clamp_upper (v hi : Q) : Qmax 0 (Qmin v hi) <= Qmax 0 hi.
Proof. apply Q.max_le_compat_l, Q.le_min_r. Qed.

Lemma clamp_small_world (v hi : Q) : hi < 0 -> Qmax 0 (Qmin v hi) == 0.
Proof.
  intros Hhi. apply Q.max_l.
  apply Qle_trans with hi; [apply Q.le_min_r | lra].
Qed.

Lemma clamp_inside (v hi : Q) :
  0 <= v -> v <= hi -> Qmax 0 (Qmin v hi) == v.
Proof.
  intros H0 Hhi. rewrite (Q.min_l v hi) by exact Hhi.
  apply Q.max_r, H0.
Qed.
End Clamp.

(** C1. Once a local player is set, the origin computed by
    [updateViewport] lies in [0, max(0, world - canvas)] on each axis,
    whatever the player position, canvas size and world size; it is 0 on
    an axis where the canvas exceeds the world; and on an axis where the
    world is at least as large as the canvas and the unclamped centering
    [player - canvas/2] already lies in [0, world - canvas], the screen
    position [player - origin] is exactly [canvas/2]. *)
Theorem updateViewport_clamped_and_centered (c : GameClient) (me : Player) :
  myPlayer c = Some me →
  let c' := updateViewport c in
  let cw := width (canvas c) in
  let ch := height (canvas c) in
  (0 <= viewportX c' ∧ viewportX c' <= Qmax 0 (worldWidth c - cw))%Q ∧
  (0 <= viewportY c' ∧ viewportY c' <= Qmax 0 (worldHeight c - ch))%Q ∧
  ((worldWidth c < cw)%Q → (viewportX c' == 0)%Q) ∧
  ((worldHeight c < ch)%Q → (viewportY c' == 0)%Q) ∧
  ((cw <= worldWidth c)%Q →
   (0 <= p_x me - cw / 2)%Q → (p_x me - cw / 2 <= worldWidth c - cw)%Q →
   (p_x me - viewportX c' == cw / 2)%Q) ∧
  ((ch <= worldHeight c)%Q →
   (0 <= p_y me - ch / 2)%Q → (p_y me - ch / 2 <= worldHeight c - ch)%Q →
   (p_y me - viewportY c' == ch / 2)%Q).
Proof.
  intros Hme. unfold updateViewport. rewrite Hme. cbn.
  repeat split.
  - apply clamp_nonneg.
  - apply clamp_upper.
  - apply clamp_nonneg.
  - apply clamp_upper.
  - intros Hlt. apply clamp_small_world. lra.
  - intros Hlt. apply clamp_small_world. lra.
  - intros _ H0 Hhi. rewrite clamp_inside by assumption. lra.
  - intros _ H0 Hhi. rewrite clamp_inside by assumption. lra.
Qed.

Lemma updateViewport_clamped_and_centered_witness :
  myPlayer sampleClient = Some samplePlayer ∧
  (p_x samplePlayer - viewportX (updateViewport sampleClient) == 800 / 2)%Q ∧
  (p_y samplePlayer - viewportY (updateViewport sampleClient) == 600 / 2)%Q.
Proof.
  destruct (updateViewport_clamped_and_centered sampleClient samplePlayer
              eq_refl) as (_ & _ & _ & _ & Hx & Hy).
  split; [reflexivity|].
  split; [apply Hx | apply Hy]; vm_compute; congruence.
Defined.

(** The accepted join of a player at (1000, 1000), on an 800 by 600 canvas
    in the 2048 by 2048 world, puts the origin at (600, 700). *)
Example join_sets_viewport :
  (viewportX joinedClient == 600)%Q ∧ (viewportY joinedClient == 700)%Q.
Proof. split; reflexivity. Qed.

(** C10. Both revisions compute the same viewport origin from the same
    local player, canvas, world size and previous origin, the early
    return without a local player included. *)
Theorem updateViewport_revisions_agree (c : GameClient)
  (c0 : Part000.GameClient) :
  Part000.myPlayer c0 = myPlayer c →
  Part000.canvas c0 = canvas c →
  Part000.worldWidth c0 = worldWidth c →
  Part000.worldHeight c0 = worldHeight c →
  Part000.viewportX c0 = viewportX c →
  Part000.viewportY c0 = viewportY c →
  Part000.viewportX (Part000.updateViewport c0) = viewportX (updateViewport c)
  ∧
  Part000.viewportY (Part000.updateViewport c0) = viewportY (updateViewport c).
Proof.
  intros Hme Hcv Hww Hwh Hvx Hvy.
  unfold Part000.updateViewport, updateViewport.
  rewrite Hme. destruct (myPlayer c) as [me|]; cbn.
  - rewrite Hcv, Hww, Hwh. split; reflexivity.
  - split; assumption.
Qed.

Lemma updateViewport_revisions_agree_witness :
  Part000.viewportX (Part000.updateViewport sampleClient000)
  = viewportX (updateViewport sampleClient)
  ∧ Part000.viewportY (Part000.updateViewport sampleClient000)
    = viewportY (updateViewport sampleClient).
Proof.
  apply (updateViewport_revisions_agree sampleClient sampleClient000);
    reflexivity.
Defined.

(** ** Frame selection *)

Lemma Qltb_false (a b : Q) : Qltb a b = false ↔ (b <= a)%Q.
Proof.
  unfold Qltb. rewrite negb_false_iff. apply Qle_bool_iff.
Qed.

(** [drawAvatar] for a player facing west, with the lookup of the facing
    direction already replaced by the lookup of ["east"]. *)
Lemma drawAvatar_west (c : GameClient) (player : Player)
  (avatarData : AvatarData) :
  p_facing player = "west" →
  drawAvatar c player avatarData =
  let avatarX := (p_x player - viewportX c)%Q in
  let avatarY := (p_y player - viewportY c)%Q in
  if Qltb avatarX (-50) || Qltb (width (canvas c) + 50) avatarX ||
     Qltb avatarY (-50) || Qltb (height (canvas c) + 50) avatarY
  then []
  else
    match a_frames avatarData !! "east"
          ≫= (.!! default 0%nat (p_animationFrame player)) with
    | Some src =>
        if truthy src
        then [NewImage src true avatarX avatarY (p_username player)]
        else []
    | None => []
    end.
Proof.
  intros Hwest. unfold drawAvatar. rewrite Hwest. cbn zeta.
  change (String.eqb "west" "west") with true. cbv iota.
  destruct (_ || _); [reflexivity|].
  destruct (a_frames avatarData !! "east") as [fs|]; reflexivity.
Qed.

(** C2. For a player facing west, whatever the avatar definition: an
    image requested by [drawAvatar] is the east frame at the player's
    animation-frame index (index 0 when the index is absent) and is drawn
    mirrored; when the avatar is inside the culling margin and that east
    frame exists and is a non-empty source, exactly that image is
    requested; and the outcome depends on the avatar definition through
    its east sequence only, so an explicit west sequence, present, absent
    or replaced, makes no difference. *)
Theorem drawAvatar_west_selects_east (c : GameClient) (player : Player)
  (avatarData : AvatarData) :
  p_facing player = "west" →
  let frameIndex := default 0%nat (p_animationFrame player) in
  let avatarX := (p_x player - viewportX c)%Q in
  let avatarY := (p_y player - viewportY c)%Q in
  (∀ src mirrored x y username,
     NewImage src mirrored x y username ∈ drawAvatar c player avatarData →
     a_frames avatarData !! "east" ≫= (.!! frameIndex) = Some src
     ∧ mirrored = true) ∧
  (∀ src,
     (-50 <= avatarX)%Q → (avatarX <= width (canvas c) + 50)%Q →
     (-50 <= avatarY)%Q → (avatarY <= height (canvas c) + 50)%Q →
     a_frames avatarData !! "east" ≫= (.!! frameIndex) = Some src →
     src ≠ EmptyString →
     drawAvatar c player avatarData =
     [NewImage src true avatarX avatarY (p_username player)]) ∧
  (∀ other : AvatarData,
     a_frames other !! "east" = a_frames avatarData !! "east" →
     drawAvatar c player other = drawAvatar c player avatarData) ∧
  (∀ westFrames : list string,
     drawAvatar c player
       {| a_name := a_name avatarData;
          a_frames := <["west" := westFrames]> (a_frames avatarData) |}
     = drawAvatar c player avatarData) ∧
  drawAvatar c player
    {| a_name := a_name avatarData;
       a_frames := delete "west" (a_frames avatarData) |}
  = drawAvatar c player avatarData.
Proof.
  intros Hwest frameIndex avatarX avatarY.
  assert (Hdep : ∀ other : AvatarData,
             a_frames other !! "east" = a_frames avatarData !! "east" →
             drawAvatar c player other = drawAvatar c player avatarData).
  { intros other Heast. rewrite !drawAvatar_west by exact Hwest.
    cbn zeta. rewrite Heast. reflexivity. }
  split; [|split; [|split; [exact Hdep|split]]].
  - intros src mirrored x y username.
    rewrite drawAvatar_west by exact Hwest. cbn zeta.
    fold frameIndex.
    destruct (_ || _); [intros Hin; inversion Hin|].
    destruct (a_frames avatarData !! "east" ≫= (.!! frameIndex)) as [s|];
      [|intros Hin; inversion Hin].
    destruct (truthy s); [|intros Hin; inversion Hin].
    intros Hin. apply list_elem_of_singleton in Hin.
    injection Hin as -> -> _ _ _. split; reflexivity.
  - intros src Hx1 Hx2 Hy1 Hy2 Heast Hsrc.
    rewrite drawAvatar_west by exact Hwest. cbn zeta.
    fold frameIndex avatarX avatarY.
    apply Qltb_false in Hx1, Hx2, Hy1, Hy2.
    rewrite Hx1, Hx2, Hy1, Hy2. cbn [orb].
    rewrite Heast. unfold truthy.
    destruct (String.eqb_spec src EmptyString); [contradiction|reflexivity].
  - intros westFrames. apply Hdep. cbn.
    apply lookup_insert_ne. discriminate.
  - apply Hdep. cbn. apply lookup_delete_ne. discriminate.
Qed.

Lemma drawAvatar_west_selects_east_witness :
  p_facing westPlayer = "west" ∧
  drawAvatar (newGameClient 800 600) westPlayer sampleAvatar =
  [NewImage "e1.png" true (100 - 0) (100 - 0) "Ann"].
Proof.
  split; [reflexivity|].
  destruct (drawAvatar_west_selects_east (newGameClient 800 600) westPlayer
              sampleAvatar eq_refl) as (_ & Hsel & _).
  apply Hsel; vm_compute; congruence.
Defined.

(** ** Redraws and intents produced by drawing *)

Lemma count_app (f : Effect → bool) (l1 l2 : list Effect) :
  count f (l1 ++ l2) = (count f l1 + count f l2)%nat.
Proof. unfold count. rewrite List.filter_app. apply length_app. Qed.

Lemma count_drawAvatar (f : Effect → bool) (c : GameClient)
  (player : Player) (avatarData : AvatarData) :
  (∀ s m x y u, f (NewImage s m x y u) = false) →
  count f (drawAvatar c player avatarData) = 0%nat.
Proof.
  intros Hf. unfold drawAvatar. cbn zeta.
  destruct (_ || _); [reflexivity|].
  destruct (if String.eqb _ _ then _ else _) as [fs|]; [|reflexivity].
  destruct (fs !! _) as [src|]; [|reflexivity].
  destruct (truthy src); [|reflexivity].
  unfold count. cbn. rewrite Hf. reflexivity.
Qed.

Lemma count_flat_map_zero {A} (f : Effect → bool) (g : A → list Effect)
  (l : list A) :
  (∀ a, count f (g a) = 0%nat) → count f (flat_map g l) = 0%nat.
Proof.
  intros Hg. induction l as [|a l IH]; [reflexivity|].
  cbn [flat_map]. rewrite count_app, Hg, IH. reflexivity.
Qed.

Lemma count_draw (f : Effect → bool) (c : GameClient) :
  (∀ s m x y u, f (NewImage s m x y u) = false) →
  (∀ x y w h, f (ClearRect x y w h) = false) →
  (∀ sx sy sw sh dx dy dw dh, f (DrawWorld sx sy sw sh dx dy dw dh) = false) →
  count f (draw c) = if f CallDraw then 1%nat else 0%nat.
Proof.
  intros Himg Hclear Hworld. unfold draw.
  change (count f (CallDraw :: ?l)) with
    (length (if f CallDraw then CallDraw :: List.filter f l
             else List.filter f l)).
  assert (Hrest : ∀ l, count f l = 0%nat →
            length (if f CallDraw then CallDraw :: List.filter f l
                    else List.filter f l)
            = if f CallDraw then 1%nat else 0%nat).
  { intros l Hl. unfold count in Hl.
    destruct (f CallDraw); cbn; rewrite Hl; reflexivity. }
  apply Hrest.
  destruct (negb (worldImage c)); [reflexivity|].
  unfold count. cbn [List.filter]. rewrite Hclear, Hworld.
  match goal with
  | |- length (List.filter f ?l) = _ => change (count f l = 0%nat)
  end.
  rewrite count_app.
  rewrite count_flat_map_zero.
  - destruct (myPlayer c) as [me|]; [|reflexivity].
    destruct (avatars c !! p_avatar me); [|reflexivity].
    apply count_drawAvatar, Himg.
  - intros [k p]. cbn.
    destruct (decide _); [|reflexivity].
    destruct (avatars c !! p_avatar p); [|reflexivity].
    apply count_drawAvatar, Himg.
Qed.

Lemma draw_one_redraw (c : GameClient) : count isRedraw (draw c) = 1%nat.
Proof. apply (count_draw isRedraw); reflexivity. Qed.

Lemma draw_no_stop (c : GameClient) : count isStopIntent (draw c) = 0%nat.
Proof. apply (count_draw isStopIntent); reflexivity. Qed.

Lemma draw_no_move (c : GameClient) : count isMoveIntent (draw c) = 0%nat.
Proof. apply (count_draw isMoveIntent); reflexivity. Qed.

(** ** The player map under [players_moved] *)

Lemma allPlayers_updateViewport (c : GameClient) :
  allPlayers (updateViewport c) = allPlayers c.
Proof. unfold updateViewport. destruct (myPlayer c); reflexivity. Qed.

Lemma allPlayers_playersMovedStep (c : GameClient) (k : string)
  (v : option Player) :
  allPlayers (playersMovedStep c (k, v)) =
  match v with
  | Some p => <[k := p]> (allPlayers c)
  | None => allPlayers c
  end.
Proof.
  unfold playersMovedStep. cbn [fst snd]. destruct v as [p|]; [|reflexivity].
  cbn zeta. destruct (decide _); [|reflexivity].
  rewrite allPlayers_updateViewport. reflexivity.
Qed.

Lemma foldl_playersMovedStep_skip (l : list (string * option Player))
  (c : GameClient) (id : string) :
  (∀ p, (id, Some p) ∉ l) →
  allPlayers (foldl playersMovedStep c l) !! id = allPlayers c !! id.
Proof.
  revert c. induction l as [|[k v] l IH]; intros c Hskip; [reflexivity|].
  cbn [foldl]. rewrite IH.
  - rewrite allPlayers_playersMovedStep. destruct v as [p|]; [|reflexivity].
    apply lookup_insert_ne. intros ->. apply (Hskip p). left.
  - intros p Hin. apply (Hskip p). right. exact Hin.
Qed.

Lemma foldl_playersMovedStep_replace (l : list (string * option Player))
  (c : GameClient) (id : string) (p : Player) :
  NoDup l.*1 → (id, Some p) ∈ l →
  allPlayers (foldl playersMovedStep c l) !! id = Some p.
Proof.
  revert c. induction l as [|[k v] l IH]; intros c Hnd Hin.
  - inversion Hin.
  - cbn in Hnd. apply NoDup_cons in Hnd as [Hk Hnd].
    apply elem_of_cons in Hin as [Heq|Hin]; cbn [foldl].
    + injection Heq as <- <-. rewrite foldl_playersMovedStep_skip.
      * rewrite allPlayers_playersMovedStep. apply lookup_insert_eq.
      * intros q Hq. apply Hk, list_elem_of_fmap.
        exists (id, Some q). split; [reflexivity|exact Hq].
    + apply IH; assumption.
Qed.

(** A present entry replaces the player's previous one wholesale. *)
Lemma players_moved_replaces_present (c : GameClient)
  (players : gmap string (option Player)) (id : string) (p : Player) :
  players !! id = Some (Some p) →
  allPlayers (handleServerMessage c (players_moved players)).1 !! id = Some p.
Proof.
  intros Hid. cbn. apply foldl_playersMovedStep_replace.
  - apply NoDup_fst_map_to_list.
  - apply elem_of_map_to_list, Hid.
Qed.

(** C3. Processing a [players_moved] message redraws exactly once, and
    leaves the entry of the player map unchanged for every id whose
    payload value is [null] and for every id the payload does not
    mention. *)
Theorem players_moved_skips_null_and_absent (c : GameClient)
  (players : gmap string (option Player)) :
  let r := handleServerMessage c (players_moved players) in
  count isRedraw r.2 = 1%nat ∧
  ∀ id : string,
    players !! id = Some None ∨ players !! id = None →
    allPlayers r.1 !! id = allPlayers c !! id.
Proof.
  cbn. split; [apply draw_one_redraw|].
  intros id Hid. apply foldl_playersMovedStep_skip.
  intros p Hin. apply elem_of_map_to_list in Hin.
  destruct Hid as [Hid|Hid]; congruence.
Qed.

Lemma players_moved_skips_null_and_absent_witness :
  allPlayers
    (handleServerMessage joinedClient (players_moved samplePayload)).1 !! "p2"
  = allPlayers joinedClient !! "p2" ∧
  allPlayers
    (handleServerMessage joinedClient (players_moved samplePayload)).1 !! "p7"
  = allPlayers joinedClient !! "p7".
Proof.
  destruct (players_moved_skips_null_and_absent joinedClient samplePayload)
    as [_ Hskip].
  split; apply Hskip; [left|right]; vm_compute; reflexivity.
Defined.

(** ** Keyboard input *)

Lemma handleKeyDown_closed (c : GameClient) (keyCode : string) :
  wsOpen c = false → handleKeyDown c keyCode = (c, []).
Proof. intros Hws. unfold handleKeyDown. rewrite Hws. reflexivity. Qed.

Lemma handleKeyDown_mapped (c : GameClient) (keyCode : string)
  (d : Direction) :
  wsOpen c = true → getDirectionFromKey keyCode = Some d →
  handleKeyDown c keyCode =
  (set_currentDirection (Some d)
     (set_activeKeys (Set_add keyCode (activeKeys c)) c),
   [CallSendMoveCommand (Some d); WsSend (MsgMove (Some d))]).
Proof.
  intros Hws Hd. unfold handleKeyDown, sendMoveCommand.
  rewrite Hws, Hd. cbn [negb]. cbv zeta.
  change (wsOpen (set_currentDirection ?v (set_activeKeys ?l c)))
    with (wsOpen c).
  rewrite Hws. reflexivity.
Qed.

Lemma handleKeyDown_unmapped (c : GameClient) (keyCode : string) :
  getDirectionFromKey keyCode = None → handleKeyDown c keyCode = (c, []).
Proof.
  intros Hd. unfold handleKeyDown. rewrite Hd.
  destruct (negb (wsOpen c)); reflexivity.
Qed.

Lemma handleKeyUp_empty (c : GameClient) (keyCode : string) :
  Set_delete keyCode (activeKeys c) = [] →
  handleKeyUp c keyCode =
  (set_currentDirection None (set_activeKeys [] c), sendStopCommand c).
Proof.
  intros Hrem. unfold handleKeyUp. cbv zeta.
  cbn [activeKeys set_activeKeys]. rewrite Hrem. reflexivity.
Qed.

Lemma handleKeyUp_nonempty (c : GameClient) (keyCode : string) :
  Set_delete keyCode (activeKeys c) ≠ [] →
  handleKeyUp c keyCode =
  let remainingKeys := Set_delete keyCode (activeKeys c) in
  let direction := last remainingKeys ≫= getDirectionFromKey in
  (set_currentDirection direction (set_activeKeys remainingKeys c),
   sendMoveCommand c direction).
Proof.
  intros Hrem. unfold handleKeyUp. cbv zeta.
  cbn [activeKeys set_activeKeys].
  destruct (Set_delete keyCode (activeKeys c)) as [|x l];
    [contradiction|reflexivity].
Qed.

Lemma count_sendMoveCommand (c : GameClient) (d : option Direction) :
  count isMoveIntent (sendMoveCommand c d) = 1%nat ∧
  count isStopIntent (sendMoveCommand c d) = 0%nat.
Proof. unfold sendMoveCommand. destruct (negb (wsOpen c)); split; reflexivity. Qed.

Lemma count_sendStopCommand (c : GameClient) :
  count isStopIntent (sendStopCommand c) = 1%nat ∧
  count isMoveIntent (sendStopCommand c) = 0%nat.
Proof. unfold sendStopCommand. destruct (negb (wsOpen c)); split; reflexivity. Qed.

(** Removing [k] from a set whose keys after [k'] are all [k] leaves [k']
    as the last key. *)
Lemma Set_delete_most_recent (k k' : string) (older newer : list string) :
  k' ≠ k → Forall (λ x, x = k) newer →
  Set_delete k (older ++ k' :: newer) = Set_delete k older ++ [k'].
Proof.
  intros Hne Hnewer. unfold Set_delete.
  rewrite filter_app, filter_cons_True by exact Hne.
  f_equal. f_equal.
  induction Hnewer as [|x l Hx _ IH]; [reflexivity|].
  rewrite filter_cons_False; [exact IH|]. intros Hn. apply Hn, Hx.
Qed.

(** C9. A key-down that arrives while there is no socket, or while the
    socket is not open, changes nothing and has no effect: the held-key
    set and the current direction stay as they are and nothing is sent. *)
Theorem handleKeyDown_channel_not_open (c : GameClient) (keyCode : string) :
  ws c ≠ Some OPEN →
  handleKeyDown c keyCode = (c, []).
Proof.
  intros Hws. apply handleKeyDown_closed. unfold wsOpen.
  destruct (ws c) as [[]|]; congruence.
Qed.

Lemma handleKeyDown_channel_not_open_witness :
  ws (newGameClient 800 600) ≠ Some OPEN ∧
  handleKeyDown (newGameClient 800 600) "ArrowUp"
  = (newGameClient 800 600, []).
Proof.
  split; [discriminate|].
  apply handleKeyDown_channel_not_open. discriminate.
Defined.

(** C5. When a key is released and a key [k'] different from it is held
    such that every key added after [k'] is the released one, [k'] is the
    most recently added remaining key: the current direction becomes the
    direction of [k'], and one move intent for that direction is emitted
    (and written to the socket when it is open), with no stop intent.
    In particular, pressing Up, then Left, then releasing Left on an open
    channel resolves the current direction back to Up. *)
Theorem handleKeyUp_most_recent_remaining :
  (∀ (c : GameClient) (k k' : string) (older newer : list string),
     activeKeys c = older ++ k' :: newer →
     k' ≠ k →
     Forall (λ x, x = k) newer →
     let r := handleKeyUp c k in
     let direction := getDirectionFromKey k' in
     currentDirection r.1 = direction ∧
     last (activeKeys r.1) = Some k' ∧
     r.2 = CallSendMoveCommand direction ::
           (if wsOpen c then [WsSend (MsgMove direction)] else []) ∧
     count isMoveIntent r.2 = 1%nat ∧
     count isStopIntent r.2 = 0%nat) ∧
  (∀ w h : Q,
     let r := run (newGameClient w h)
                [ws_onopen; keydown "ArrowUp"; keydown "ArrowLeft";
                 keyup "ArrowLeft"] in
     currentDirection r.1 = Some up ∧ activeKeys r.1 = ["ArrowUp"]).
Proof.
  split.
  - intros c k k' older newer Hheld Hne Hnewer r direction.
    assert (Hrem : Set_delete k (activeKeys c) = Set_delete k older ++ [k']).
    { rewrite Hheld. apply Set_delete_most_recent; assumption. }
    assert (Hr : r = (set_currentDirection direction
                        (set_activeKeys (Set_delete k older ++ [k']) c),
                      sendMoveCommand c direction)).
    { unfold r. rewrite handleKeyUp_nonempty.
      - cbv zeta. rewrite Hrem, last_snoc. reflexivity.
      - rewrite Hrem. intros Hnil. destruct (Set_delete k older); discriminate. }
    rewrite Hr. cbn [fst snd currentDirection set_currentDirection
                     activeKeys set_activeKeys].
    split; [reflexivity|]. split; [apply last_snoc|].
    split; [|apply count_sendMoveCommand].
    unfold sendMoveCommand. destruct (wsOpen c); reflexivity.
  - intros w h. split; reflexivity.
Qed.

Lemma handleKeyUp_most_recent_remaining_witness :
  activeKeys upLeftHeldClient = [] ++ "ArrowUp" :: ["ArrowLeft"] ∧
  currentDirection upLeftHeldClient = Some left ∧
  currentDirection (handleKeyUp upLeftHeldClient "ArrowLeft").1 = Some up.
Proof.
  split; [reflexivity|]. split; [reflexivity|].
  destruct handleKeyUp_most_recent_remaining as [Hgen _].
  apply (Hgen upLeftHeldClient "ArrowLeft" "ArrowUp" [] ["ArrowLeft"]).
  - reflexivity.
  - discriminate.
  - repeat constructor.
Defined.

Lemma handleServerMessage_no_intent (c : GameClient) (message : Message) :
  count isMoveIntent (handleServerMessage c message).2 = 0%nat ∧
  count isStopIntent (handleServerMessage c message).2 = 0%nat.
Proof.
  destruct message as [[] id av pl err|pl|p a|id|tag]; cbn [handleServerMessage snd];
    rewrite ?count_app, ?draw_no_move, ?draw_no_stop; split; reflexivity.
Qed.

(** C4, as the code has it. A key-down of a mapped key that arrives while
    the channel is open always sets the current direction to that key's
    direction and emits one move intent for it, whether or not the key is
    already held; a key already held keeps its place in the held set and a
    new key is added last.  Move intents come from nowhere else than such
    a key-down and the re-resolution on a key-up that leaves a key held. *)
Theorem handleKeyDown_emits_on_every_mapped_keydown :
  (∀ (c : GameClient) (k : string) (d : Direction),
     wsOpen c = true → getDirectionFromKey k = Some d →
     let r := handleKeyDown c k in
     r.2 = [CallSendMoveCommand (Some d); WsSend (MsgMove (Some d))] ∧
     currentDirection r.1 = Some d ∧
     (k ∈ activeKeys c → activeKeys r.1 = activeKeys c) ∧
     (k ∉ activeKeys c → activeKeys r.1 = activeKeys c ++ [k])) ∧
  (∀ (c : GameClient) (e : Event),
     count isMoveIntent (dispatch c e).2 ≠ 0%nat →
     (∃ k d, e = keydown k ∧ getDirectionFromKey k = Some d
             ∧ wsOpen c = true) ∨
     (∃ k, e = keyup k ∧ isArrowKey k = true
           ∧ Set_delete k (activeKeys c) ≠ [])).
Proof.
  split.
  - intros c k d Hws Hd r. unfold r.
    rewrite (handleKeyDown_mapped c k d Hws Hd).
    cbn [fst snd currentDirection set_currentDirection activeKeys
         set_activeKeys].
    split; [reflexivity|]. split; [reflexivity|].
    unfold Set_add. split; intros Hin; destruct (decide _);
      try reflexivity; contradiction.
  - intros c e Hcount.
    destruct e as [k|k|w h| | |m|err| |]; cbn [dispatch] in Hcount.
    + left. destruct (isArrowKey k); [|contradiction].
      destruct (wsOpen c) eqn:Hws;
        [|rewrite handleKeyDown_closed in Hcount by exact Hws; contradiction].
      destruct (getDirectionFromKey k) as [d|] eqn:Hd;
        [|rewrite handleKeyDown_unmapped in Hcount by exact Hd; contradiction].
      exists k, d. auto.
    + right. destruct (isArrowKey k) eqn:Harrow; [|contradiction].
      exists k. split; [reflexivity|]. split; [exact Harrow|].
      intros Hrem. rewrite handleKeyUp_empty in Hcount by exact Hrem.
      apply Hcount, count_sendStopCommand.
    + exfalso. apply Hcount, draw_no_move.
    + exfalso. apply Hcount, draw_no_move.
    + exfalso. apply Hcount. reflexivity.
    + exfalso. apply Hcount, handleServerMessage_no_intent.
    + exfalso. apply Hcount. reflexivity.
    + exfalso. apply Hcount. reflexivity.
    + exfalso. apply Hcount. reflexivity.
Qed.

Lemma handleKeyDown_emits_on_every_mapped_keydown_witness :
  wsOpen upHeldClient = true ∧ "ArrowUp" ∈ activeKeys upHeldClient ∧
  (handleKeyDown upHeldClient "ArrowUp").2 =
  [CallSendMoveCommand (Some up); WsSend (MsgMove (Some up))].
Proof.
  split; [reflexivity|]. split; [apply list_elem_of_singleton; reflexivity|].
  destruct handleKeyDown_emits_on_every_mapped_keydown as [Hdown _].
  apply (Hdown upHeldClient "ArrowUp" up); reflexivity.
Defined.

(** C4 as stated fails: Up is already held and its key-down arrives again
    (keyboard auto-repeat); a move intent is emitted all the same. With Up
    and Left held, a further key-down of Up also changes the current
    direction from left to up. *)
Lemma handleKeyDown_held_key_counterexample :
  ("ArrowUp" ∈ activeKeys upHeldClient ∧
   count isMoveIntent (handleKeyDown upHeldClient "ArrowUp").2 ≠ 0%nat) ∧
  ("ArrowUp" ∈ activeKeys upLeftHeldClient ∧
   (handleKeyDown upLeftHeldClient "ArrowUp").1 ≠ upLeftHeldClient).
Proof.
  split; split.
  - apply list_elem_of_singleton. reflexivity.
  - discriminate.
  - left.
  - intros Heq. apply (f_equal currentDirection) in Heq. discriminate.
Qed.

(** ** Stop intents *)

Lemma handleKeyDown_no_stop (c : GameClient) (k : string) :
  count isStopIntent (handleKeyDown c k).2 = 0%nat.
Proof.
  unfold handleKeyDown. destruct (negb (wsOpen c)); [reflexivity|].
  destruct (getDirectionFromKey k); [|reflexivity].
  apply count_sendMoveCommand.
Qed.

(** Stop intents of one release, by the held set it leaves behind. *)
Lemma handleKeyUp_stop_count (c : GameClient) (k : string) :
  count isStopIntent (handleKeyUp c k).2 =
  if bool_decide (activeKeys (handleKeyUp c k).1 = []) then 1%nat else 0%nat.
Proof.
  destruct (decide (Set_delete k (activeKeys c) = [])) as [Hrem|Hrem].
  - rewrite handleKeyUp_empty by exact Hrem. cbn.
    apply count_sendStopCommand.
  - rewrite handleKeyUp_nonempty by exact Hrem. cbn.
    rewrite bool_decide_eq_false_2 by exact Hrem.
    apply count_sendMoveCommand.
Qed.

Lemma dispatch_stop_count (c : GameClient) (e : Event) :
  count isStopIntent (dispatch c e).2 =
  match e with
  | keyup code =>
      if isArrowKey code && bool_decide (activeKeys (dispatch c e).1 = [])
      then 1%nat else 0%nat
  | _ => 0%nat
  end.
Proof.
  destruct e as [k|k|w h| | |m|err| |]; cbn [dispatch].
  - destruct (isArrowKey k); [apply handleKeyDown_no_stop|reflexivity].
  - destruct (isArrowKey k); [apply handleKeyUp_stop_count|reflexivity].
  - apply draw_no_stop.
  - apply draw_no_stop.
  - reflexivity.
  - apply handleServerMessage_no_intent.
  - reflexivity.
  - reflexivity.
  - reflexivity.
Qed.

Lemma run_cons (c : GameClient) (e : Event) (es : list Event) :
  run c (e :: es) =
  ((run (dispatch c e).1 es).1, (dispatch c e).2 ++ (run (dispatch c e).1 es).2).
Proof.
  cbn [run]. destruct (dispatch c e) as [c1 out1]. cbn [fst snd].
  destruct (run c1 es) as [c2 out2]. reflexivity.
Qed.

(** The held-key set is touched by the key handlers only. *)
Lemma activeKeys_updateViewport (c : GameClient) :
  activeKeys (updateViewport c) = activeKeys c.
Proof. unfold updateViewport. destruct (myPlayer c); reflexivity. Qed.

Lemma activeKeys_foldl_playersMovedStep (l : list (string * option Player))
  (c : GameClient) :
  activeKeys (foldl playersMovedStep c l) = activeKeys c.
Proof.
  revert c. induction l as [|[k v] l IH]; intros c; [reflexivity|].
  cbn [foldl]. rewrite IH. unfold playersMovedStep. cbn [fst snd].
  destruct v as [p|]; [|reflexivity].
  cbn zeta. destruct (decide _); [|reflexivity].
  rewrite activeKeys_updateViewport. reflexivity.
Qed.

Lemma activeKeys_handleServerMessage (c : GameClient) (message : Message) :
  activeKeys (handleServerMessage c message).1 = activeKeys c.
Proof.
  destruct message as [[] id av pl err|pl|p a|id|tag];
    cbn [handleServerMessage fst]; try reflexivity.
  - rewrite activeKeys_updateViewport. reflexivity.
  - apply activeKeys_foldl_playersMovedStep.
Qed.

Lemma Set_add_nonempty (k : string) (s : list string) :
  s ≠ [] → Set_add k s ≠ [].
Proof.
  intros Hs. unfold Set_add. destruct (decide _); [exact Hs|].
  destruct s; discriminate.
Qed.

Lemma handleKeyDown_keeps_nonempty (c : GameClient) (k : string) :
  activeKeys c ≠ [] → activeKeys (handleKeyDown c k).1 ≠ [].
Proof.
  intros Hheld. unfold handleKeyDown.
  destruct (negb (wsOpen c)); [exact Hheld|].
  destruct (getDirectionFromKey k); [|exact Hheld].
  cbn. apply Set_add_nonempty, Hheld.
Qed.

(** Whatever the event, a step that takes the held set from non-empty to
    empty emits exactly one stop intent. *)
Lemma dispatch_transition_stops (c : GameClient) (e : Event) :
  activeKeys c ≠ [] → activeKeys (dispatch c e).1 = [] →
  count isStopIntent (dispatch c e).2 = 1%nat.
Proof.
  intros Hheld Hempty.
  destruct e as [k|k|w h| | |m|err| |]; cbn [dispatch] in *.
  - exfalso. destruct (isArrowKey k); [|exact (Hheld Hempty)].
    exact (handleKeyDown_keeps_nonempty c k Hheld Hempty).
  - destruct (isArrowKey k); [|exact (False_ind _ (Hheld Hempty))].
    rewrite handleKeyUp_stop_count.
    rewrite bool_decide_eq_true_2 by exact Hempty. reflexivity.
  - exfalso. cbn in Hempty. rewrite activeKeys_updateViewport in Hempty.
    exact (Hheld Hempty).
  - exfalso. exact (Hheld Hempty).
  - exfalso. exact (Hheld Hempty).
  - exfalso. rewrite activeKeys_handleServerMessage in Hempty.
    exact (Hheld Hempty).
  - exfalso. exact (Hheld Hempty).
  - exfalso. exact (Hheld Hempty).
  - exfalso. exact (Hheld Hempty).
Qed.

(** C6, as the code has it. In every run of events the number of stop
    intents equals the number of releases of an arrow key after which no
    key is held: releasing the only held key emits exactly one stop
    intent, every step that takes the held set from non-empty to empty
    emits exactly one, and a release that leaves a key held emits none. *)
Theorem stop_intent_once_per_release_leaving_empty :
  (∀ (c : GameClient) (es : list Event),
     count isStopIntent (run c es).2 = releasesLeavingEmpty c es) ∧
  (∀ (c : GameClient) (k : string),
     activeKeys c = [k] →
     count isStopIntent (handleKeyUp c k).2 = 1%nat ∧
     activeKeys (handleKeyUp c k).1 = [] ∧
     currentDirection (handleKeyUp c k).1 = None) ∧
  (∀ (c : GameClient) (e : Event),
     activeKeys c ≠ [] → activeKeys (dispatch c e).1 = [] →
     count isStopIntent (dispatch c e).2 = 1%nat) ∧
  (∀ (c : GameClient) (k : string),
     Set_delete k (activeKeys c) ≠ [] →
     count isStopIntent (handleKeyUp c k).2 = 0%nat).
Proof.
  split; [|split; [|split; [exact dispatch_transition_stops|]]].
  - intros c es. revert c. induction es as [|e es IH]; intros c; [reflexivity|].
    rewrite run_cons. cbn [snd releasesLeavingEmpty].
    rewrite count_app, IH, dispatch_stop_count.
    destruct e; reflexivity.
  - intros c k Hheld.
    assert (Hrem : Set_delete k (activeKeys c) = []).
    { rewrite Hheld. unfold Set_delete.
      rewrite filter_cons_False; [reflexivity|]. intros Hn. apply Hn.
      reflexivity. }
    rewrite handleKeyUp_empty by exact Hrem. cbn.
    split; [apply count_sendStopCommand|]. split; reflexivity.
  - intros c k Hrem. rewrite handleKeyUp_nonempty by exact Hrem. cbn.
    apply count_sendMoveCommand.
Qed.

Lemma stop_intent_once_per_release_leaving_empty_witness :
  activeKeys upHeldClient = ["ArrowUp"] ∧
  count isStopIntent (handleKeyUp upHeldClient "ArrowUp").2 = 1%nat ∧
  (Set_delete "ArrowLeft" (activeKeys upLeftHeldClient) ≠ [] ∧
   count isStopIntent (handleKeyUp upLeftHeldClient "ArrowLeft").2 = 0%nat).
Proof.
  destruct stop_intent_once_per_release_leaving_empty
    as (_ & Hone & _ & Hnone).
  split; [reflexivity|]. split.
  - apply (Hone upHeldClient "ArrowUp"). reflexivity.
  - split; [discriminate|].
    apply (Hnone upLeftHeldClient "ArrowLeft"). discriminate.
Defined.

(** C6 as stated fails: Up is pressed while the socket is still
    connecting, so it is not recorded as held, and released once the
    socket is open. The release finds the held set empty and leaves it
    empty, yet a stop intent is emitted: one stop intent, no transition
    to empty. *)
Lemma stop_intent_without_transition_counterexample :
  activeKeys (run (newGameClient 800 600) [keydown "ArrowUp"; ws_onopen]).1
  = [] ∧
  count isStopIntent (run (newGameClient 800 600) earlyPress).2 = 1%nat ∧
  transitionsToEmpty (newGameClient 800 600) earlyPress = 0%nat ∧
  count isStopIntent (run (newGameClient 800 600) earlyPress).2
  ≠ transitionsToEmpty (newGameClient 800 600) earlyPress.
Proof.
  split; [reflexivity|]. split; [reflexivity|]. split; [reflexivity|].
  discriminate.
Qed.

(** ** The local player id *)

Lemma myPlayerId_updateViewport (c : GameClient) :
  myPlayerId (updateViewport c) = myPlayerId c.
Proof. unfold updateViewport. destruct (myPlayer c); reflexivity. Qed.

Lemma myPlayerId_playersMovedStep (c : GameClient)
  (entry : string * option Player) :
  myPlayerId (playersMovedStep c entry) = myPlayerId c.
Proof.
  unfold playersMovedStep. destruct entry.2 as [p|]; [|reflexivity].
  cbn zeta. destruct (decide _); [|reflexivity].
  rewrite myPlayerId_updateViewport. reflexivity.
Qed.

Lemma myPlayerId_foldl_playersMovedStep (l : list (string * option Player))
  (c : GameClient) :
  myPlayerId (foldl playersMovedStep c l) = myPlayerId c.
Proof.
  revert c. induction l as [|entry l IH]; intros c; [reflexivity|].
  cbn [foldl]. rewrite IH. apply myPlayerId_playersMovedStep.
Qed.

(** C7, as the code has it. Every inbound message other than an accepted
    [join_game] leaves the local player id unchanged; an accepted
    [join_game] sets it to the id the message carries, also when an id was
    set before; and a [player_left] message naming another id leaves the
    local player's entry of the player map as it was. *)
Theorem local_player_id_changes_only_on_join :
  (∀ (c : GameClient) (message : Message),
     isSuccessfulJoin message = false →
     myPlayerId (handleServerMessage c message).1 = myPlayerId c) ∧
  (∀ (c : GameClient) (playerId : string) avatars players error,
     myPlayerId
       (handleServerMessage c
          (join_game true playerId avatars players error)).1
     = Some playerId) ∧
  (∀ (c : GameClient) (localId leftId : string),
     myPlayerId c = Some localId →
     leftId ≠ localId →
     allPlayers (handleServerMessage c (player_left leftId)).1 !! localId
     = allPlayers c !! localId).
Proof.
  split; [|split].
  - intros c message Hjoin.
    destruct message as [ok id av pl err|pl|p a|id|tag];
      cbn [handleServerMessage fst]; try reflexivity.
    + cbn in Hjoin. rewrite Hjoin. reflexivity.
    + apply myPlayerId_foldl_playersMovedStep.
  - intros c playerId av pl err. cbn [handleServerMessage fst].
    rewrite myPlayerId_updateViewport. reflexivity.
  - intros c localId leftId _ Hne. cbn.
    apply lookup_delete_ne. exact Hne.
Qed.

Lemma local_player_id_changes_only_on_join_witness :
  myPlayerId joinedClient = Some "p1" ∧
  myPlayerId (handleServerMessage joinedClient (player_left "p2")).1
  = Some "p1" ∧
  allPlayers (handleServerMessage joinedClient (player_left "p2")).1 !! "p1"
  = allPlayers joinedClient !! "p1".
Proof.
  destruct local_player_id_changes_only_on_join as (Hkeep & _ & Hleft).
  split; [reflexivity|]. split.
  - rewrite (Hkeep joinedClient (player_left "p2")); reflexivity.
  - apply (Hleft joinedClient "p1" "p2"); [reflexivity|discriminate].
Defined.

(** C7 as stated fails: after an accepted join as ["p1"], a further
    accepted [join_game] (the client joins again after every reconnect)
    replaces the local player id. *)
Lemma local_player_id_rejoin_counterexample :
  myPlayerId joinedClient = Some "p1" ∧
  myPlayerId (handleServerMessage joinedClient rejoinMessage).1 = Some "p9" ∧
  myPlayerId (handleServerMessage joinedClient rejoinMessage).1
  ≠ myPlayerId joinedClient.
Proof.
  split; [reflexivity|]. split; [reflexivity|]. discriminate.
Qed.

(** C8. A [join_game] message with [success] false reports the error on
    the console and leaves the whole client as it was: local player id,
    player map, avatar map, viewport origin and socket alike. *)
Theorem join_failure_changes_nothing (c : GameClient) (playerId : string)
  (avatars : gmap string AvatarData) (players : gmap string Player)
  (error : string) :
  handleServerMessage c (join_game false playerId avatars players error)
  = (c, [ConsoleError "Failed to join game:" error]).
Proof. reflexivity. Qed.

(** * Further properties of the client *)

(** ** Keys and directions *)

Lemma arrow_key_has_direction (code : string) :
  isArrowKey code = true → is_Some (getDirectionFromKey code).
Proof.
  unfold isArrowKey, getDirectionFromKey. rewrite bool_decide_eq_true.
  intros Hin. repeat (apply elem_of_cons in Hin as [->|Hin]; [cbn; eauto|]).
  inversion Hin.
Qed.




Lemma run_invariant (P : GameClient → Prop) :
  (∀ c e, P c → P (dispatch c e).1) →
  ∀ es c, P c → P (run c es).1.
Proof.
  intros Hstep es. induction es as [|e es IH]; intros c Hc; [exact Hc|].
  rewrite run_cons. cbn [fst]. apply IH, Hstep, Hc.
Qed.

Lemma run_count_zero (P : GameClient → Prop) (f : Effect → bool) :
  (∀ c e, P c → P (dispatch c e).1) →
  (∀ c e, P c → count f (dispatch c e).2 = 0%nat) →
  ∀ es c, P c → count f (run c es).2 = 0%nat.
Proof.
  intros Hstep Hzero es. induction es as [|e es IH]; intros c Hc;
    [reflexivity|].
  rewrite run_cons. cbn [snd]. rewrite count_app, Hzero by exact Hc.
  apply IH, Hstep, Hc.
Qed.

Lemma currentDirection_updateViewport (c : GameClient) :
  currentDirection (updateViewport c) = currentDirection c.
Proof. unfold updateViewport. destruct (myPlayer c); reflexivity. Qed.

Lemma currentDirection_foldl_playersMovedStep
  (l : list (string * option Player)) (c : GameClient) :
  currentDirection (foldl playersMovedStep c l) = currentDirection c.
Proof.
  revert c. induction l as [|[k v] l IH]; intros c; [reflexivity|].
  cbn [foldl]. rewrite IH. unfold playersMovedStep. cbn [fst snd].
  destruct v as [p|]; [|reflexivity].
  cbn zeta. destruct (decide _); [|reflexivity].
  rewrite currentDirection_updateViewport. reflexivity.
Qed.

Lemma currentDirection_handleServerMessage (c : GameClient)
  (message : Message) :
  currentDirection (handleServerMessage c message).1 = currentDirection c.
Proof.
  destruct message as [[] id av pl err|pl|p a|id|tag];
    cbn [handleServerMessage fst]; try reflexivity.
  - rewrite currentDirection_updateViewport. reflexivity.
  - apply currentDirection_foldl_playersMovedStep.
Qed.

(** Events other than key events leave the input state alone. *)
Lemma dispatch_keeps_input (c : GameClient) (e : Event) :
  (∀ k, e ≠ keydown k) → (∀ k, e ≠ keyup k) →
  activeKeys (dispatch c e).1 = activeKeys c ∧
  currentDirection (dispatch c e).1 = currentDirection c.
Proof.
  intros Hdown Hup.
  destruct e as [k|k|w h| | |m|err| |]; cbn [dispatch fst];
    try (split; reflexivity).
  - destruct (Hdown k eq_refl).
  - destruct (Hup k eq_refl).
  - rewrite activeKeys_updateViewport, currentDirection_updateViewport.
    split; reflexivity.
  - split; [apply activeKeys_handleServerMessage
           |apply currentDirection_handleServerMessage].
Qed.

Lemma inputWellFormed_ext (c c' : GameClient) :
  activeKeys c' = activeKeys c → currentDirection c' = currentDirection c →
  inputWellFormed c → inputWellFormed c'.
Proof. unfold inputWellFormed. intros -> ->. trivial. Qed.

Lemma last_nonempty {A} (l : list A) : l ≠ [] → ∃ x, last l = Some x ∧ x ∈ l.
Proof.
  intros Hl. destruct (last l) as [x|] eqn:Hlast.
  - exists x. split; [reflexivity|].
    apply last_Some in Hlast as [l' ->]. apply elem_of_app. right. left.
  - apply last_None in Hlast. contradiction.
Qed.

Lemma inputWellFormed_handleKeyDown (c : GameClient) (k : string) :
  isArrowKey k = true → inputWellFormed c →
  inputWellFormed (handleKeyDown c k).1.
Proof.
  intros Harrow Hwf.
  destruct (wsOpen c) eqn:Hws;
    [|rewrite handleKeyDown_closed by exact Hws; exact Hwf].
  destruct (arrow_key_has_direction k Harrow) as [d Hd].
  rewrite (handleKeyDown_mapped c k d Hws Hd). cbn [fst].
  destruct Hwf as (Hnd & Harr & _ & _).
  unfold inputWellFormed. cbn [activeKeys currentDirection
    set_currentDirection set_activeKeys].
  assert (Hin : k ∈ Set_add k (activeKeys c)).
  { unfold Set_add. destruct (decide _); [assumption|].
    apply elem_of_app. right. left. }
  split; [|split; [|split]].
  - unfold Set_add. destruct (decide _) as [|Hnin]; [exact Hnd|].
    apply NoDup_app. split; [exact Hnd|]. split.
    + intros x Hx Hxk. apply list_elem_of_singleton in Hxk as ->.
      contradiction.
    + apply NoDup_singleton.
  - unfold Set_add. destruct (decide _); [exact Harr|].
    apply Forall_app. split; [exact Harr|]. repeat constructor. exact Harrow.
  - split; [|discriminate]. intros Hnil. rewrite Hnil in Hin.
    inversion Hin.
  - intros d' [= <-]. exists k. split; assumption.
Qed.

Lemma inputWellFormed_handleKeyUp (c : GameClient) (k : string) :
  inputWellFormed c → inputWellFormed (handleKeyUp c k).1.
Proof.
  intros (Hnd & Harr & _ & _).
  assert (Hnd' : NoDup (Set_delete k (activeKeys c)))
    by apply NoDup_filter, Hnd.
  assert (Harr' : Forall (λ k, isArrowKey k = true)
                    (Set_delete k (activeKeys c))).
  { rewrite Forall_forall in Harr |- *. intros x Hx. apply Harr.
    apply list_elem_of_filter in Hx as [_ Hx]. exact Hx. }
  destruct (decide (Set_delete k (activeKeys c) = [])) as [Hrem|Hrem].
  - rewrite handleKeyUp_empty by exact Hrem. cbn [fst].
    unfold inputWellFormed. cbn.
    split; [constructor|]. split; [constructor|].
    split; [split; reflexivity|discriminate].
  - rewrite handleKeyUp_nonempty by exact Hrem. cbn [fst].
    unfold inputWellFormed. cbn [activeKeys currentDirection
      set_currentDirection set_activeKeys].
    destruct (last_nonempty _ Hrem) as (k' & Hlast & Hin).
    rewrite Hlast. cbn [mbind option_bind].
    assert (Hk' : isArrowKey k' = true).
    { rewrite Forall_forall in Harr'. apply Harr', Hin. }
    destruct (arrow_key_has_direction k' Hk') as [d Hd].
    rewrite Hd.
    split; [exact Hnd'|]. split; [exact Harr'|].
    split; [split; [contradiction|discriminate]|].
    intros d' [= <-]. exists k'. split; assumption.
Qed.

Lemma inputWellFormed_dispatch (c : GameClient) (e : Event) :
  inputWellFormed c → inputWellFormed (dispatch c e).1.
Proof.
  intros Hwf.
  destruct (e) as [k|k|w h| | |m|err| |] eqn:He;
    try (apply (inputWellFormed_ext c); [..|exact Hwf];
         apply (dispatch_keeps_input c); discriminate).
  - cbn [dispatch]. destruct (isArrowKey k) eqn:Harrow; [|exact Hwf].
    apply inputWellFormed_handleKeyDown; assumption.
  - cbn [dispatch]. destruct (isArrowKey k); [|exact Hwf].
    apply inputWellFormed_handleKeyUp; assumption.
Qed.

Lemma inputWellFormed_new (w h : Q) : inputWellFormed (newGameClient w h).
Proof.
  unfold inputWellFormed. cbn.
  split; [constructor|]. split; [constructor|].
  split; [split; reflexivity|discriminate].
Qed.

(** X2. Whatever events arrive after construction, the held keys are
    arrow codes without repetition, the current direction is null exactly
    when no key is held, and a non-null current direction is the
    direction of a key that is held. *)
Theorem input_state_well_formed (w h : Q) (es : list Event) :
  let c := (run (newGameClient w h) es).1 in
  NoDup (activeKeys c) ∧
  Forall (λ k, isArrowKey k = true) (activeKeys c) ∧
  (activeKeys c = [] ↔ currentDirection c = None) ∧
  (∀ d, currentDirection c = Some d →
        ∃ k, k ∈ activeKeys c ∧ getDirectionFromKey k = Some d).
Proof.
  apply (run_invariant inputWellFormed).
  - intros c e. apply inputWellFormed_dispatch.
  - apply inputWellFormed_new.
Qed.

Lemma input_state_well_formed_witness :
  currentDirection upLeftHeldClient = Some left ∧
  ∃ k, k ∈ activeKeys upLeftHeldClient ∧ getDirectionFromKey k = Some left.
Proof.
  split; [reflexivity|].
  destruct (input_state_well_formed 800 600
              [ws_onopen; keydown "ArrowUp"; keydown "ArrowLeft"])
    as (_ & _ & _ & Hdir).
  apply Hdir. reflexivity.
Defined.

Lemma Set_delete_fresh (k : string) (s : list string) :
  k ∉ s → Set_delete k (s ++ [k]) = s.
Proof.
  intros Hk. unfold Set_delete.
  rewrite filter_app, filter_cons_False, filter_nil, app_nil_r
    by (intros Hn; apply Hn; reflexivity).
  induction s as [|x s IH]; [reflexivity|].
  apply not_elem_of_cons in Hk as [Hx Hk].
  rewrite filter_cons_True by (intros ->; apply Hx; reflexivity).
  f_equal. apply IH, Hk.
Qed.

(** X3. On an open channel, pressing a mapped key that is not held and
    then releasing it gives back the held set as it was; the current
    direction is resolved again from the most recently added key of that
    set (null when the set is empty), and the release emits a stop intent
    exactly when the set is empty. *)
Theorem press_then_release_restores_held_set (c : GameClient) (k : string)
  (d : Direction) :
  wsOpen c = true →
  getDirectionFromKey k = Some d →
  k ∉ activeKeys c →
  let pressed := (handleKeyDown c k).1 in
  let r := handleKeyUp pressed k in
  activeKeys pressed = activeKeys c ++ [k] ∧
  activeKeys r.1 = activeKeys c ∧
  currentDirection r.1 = last (activeKeys c) ≫= getDirectionFromKey ∧
  count isStopIntent r.2
  = (if bool_decide (activeKeys c = []) then 1%nat else 0%nat).
Proof.
  intros Hws Hd Hk pressed r.
  assert (Hpressed : activeKeys pressed = activeKeys c ++ [k]).
  { unfold pressed. rewrite (handleKeyDown_mapped c k d Hws Hd). cbn.
    unfold Set_add. destruct (decide _); [contradiction|reflexivity]. }
  assert (Hrem : Set_delete k (activeKeys pressed) = activeKeys c).
  { rewrite Hpressed. apply Set_delete_fresh, Hk. }
  split; [exact Hpressed|].
  destruct (decide (activeKeys c = [])) as [Hnil|Hnil].
  - unfold r. rewrite handleKeyUp_empty by (rewrite Hrem; exact Hnil).
    cbn [fst snd activeKeys currentDirection set_currentDirection
         set_activeKeys].
    rewrite Hnil. cbn.
    split; [reflexivity|]. split; [reflexivity|].
    apply count_sendStopCommand.
  - unfold r. rewrite handleKeyUp_nonempty by (rewrite Hrem; exact Hnil).
    cbn [fst snd activeKeys currentDirection set_currentDirection
         set_activeKeys]. rewrite Hrem.
    split; [reflexivity|]. split; [reflexivity|].
    rewrite bool_decide_eq_false_2 by exact Hnil.
    apply count_sendMoveCommand.
Qed.

Lemma press_then_release_restores_held_set_witness :
  activeKeys (handleKeyUp (handleKeyDown upHeldClient "ArrowLeft").1
                "ArrowLeft").1
  = activeKeys upHeldClient ∧
  currentDirection (handleKeyUp (handleKeyDown upHeldClient "ArrowLeft").1
                      "ArrowLeft").1
  = Some up.
Proof.
  destruct (press_then_release_restores_held_set upHeldClient "ArrowLeft"
              left) as (_ & Hkeys & Hdir & _).
  - reflexivity.
  - reflexivity.
  - intros Hin. apply list_elem_of_singleton in Hin. discriminate.
  - split; [exact Hkeys|]. rewrite Hdir. reflexivity.
Defined.

(** ** What is written to the socket *)

Lemma draw_no_send (c : GameClient) : count isWsSend (draw c) = 0%nat.
Proof. apply (count_draw isWsSend); reflexivity. Qed.

Lemma draw_no_undirected (c : GameClient) :
  count isUndirectedMove (draw c) = 0%nat.
Proof. apply (count_draw isUndirectedMove); reflexivity. Qed.

Lemma handleServerMessage_no_send (c : GameClient) (message : Message) :
  count isWsSend (handleServerMessage c message).2 = 0%nat ∧
  count isUndirectedMove (handleServerMessage c message).2 = 0%nat.
Proof.
  destruct message as [[] id av pl err|pl|p a|id|tag];
    cbn [handleServerMessage snd];
    rewrite ?count_app, ?draw_no_send, ?draw_no_undirected;
    split; reflexivity.
Qed.

(** X4. Nothing is ever written to a socket that is not open: an event
    that finds the socket absent or not open writes nothing, unless it is
    the socket's own [onopen], which writes the join request. A key
    released meanwhile is still removed from the held set. *)
Theorem no_send_unless_open (c : GameClient) (e : Event) :
  wsOpen c = false →
  (e ≠ ws_onopen → count isWsSend (dispatch c e).2 = 0%nat) ∧
  (dispatch c ws_onopen).2
  = [ConsoleLog "Connected to game server"; WsSend (MsgJoinGame "Joe")] ∧
  (∀ k, isArrowKey k = true →
        activeKeys (dispatch c (keyup k)).1 = Set_delete k (activeKeys c) ∧
        k ∉ activeKeys (dispatch c (keyup k)).1).
Proof.
  intros Hws. split; [|split; [reflexivity|]].
  - intros Hopen.
    destruct e as [k|k|w h| | |m|err| |]; cbn [dispatch snd];
      try reflexivity.
    + destruct (isArrowKey k); [|reflexivity].
      rewrite handleKeyDown_closed by exact Hws. reflexivity.
    + destruct (isArrowKey k); [|reflexivity].
      unfold handleKeyUp, sendStopCommand, sendMoveCommand. cbv zeta.
      destruct (Nat.eqb _ _); cbn [snd];
        match goal with
        | |- context [wsOpen ?c'] => change (wsOpen c') with (wsOpen c)
        end; rewrite Hws; reflexivity.
    + apply draw_no_send.
    + apply draw_no_send.
    + contradiction.
    + apply handleServerMessage_no_send.
  - intros k Harrow. cbn [dispatch]. rewrite Harrow.
    assert (Hkeys : activeKeys (handleKeyUp c k).1
                    = Set_delete k (activeKeys c)).
    { destruct (decide (Set_delete k (activeKeys c) = [])) as [Hrem|Hrem].
      - rewrite handleKeyUp_empty by exact Hrem. symmetry. exact Hrem.
      - rewrite handleKeyUp_nonempty by exact Hrem. reflexivity. }
    split; [exact Hkeys|]. rewrite Hkeys. unfold Set_delete.
    intros Hin. apply list_elem_of_filter in Hin as [Hne _].
    apply Hne. reflexivity.
Qed.

Lemma no_send_unless_open_witness :
  wsOpen (newGameClient 800 600) = false ∧
  count isWsSend (dispatch (newGameClient 800 600) (keyup "ArrowUp")).2
  = 0%nat.
Proof.
  split; [reflexivity|].
  destruct (no_send_unless_open (newGameClient 800 600) (keyup "ArrowUp")
              eq_refl) as [Hquiet _].
  apply Hquiet. discriminate.
Defined.

Lemma dispatch_no_undirected (c : GameClient) (e : Event) :
  inputWellFormed c → count isUndirectedMove (dispatch c e).2 = 0%nat.
Proof.
  intros (_ & Harr & _ & _).
  destruct e as [k|k|w h| | |m|err| |]; cbn [dispatch snd];
    try reflexivity.
  - destruct (isArrowKey k); [|reflexivity].
    destruct (wsOpen c) eqn:Hws;
      [|rewrite handleKeyDown_closed by exact Hws; reflexivity].
    destruct (getDirectionFromKey k) as [d|] eqn:Hd;
      [|rewrite handleKeyDown_unmapped by exact Hd; reflexivity].
    rewrite (handleKeyDown_mapped c k d Hws Hd). reflexivity.
  - destruct (isArrowKey k); [|reflexivity].
    destruct (decide (Set_delete k (activeKeys c) = [])) as [Hrem|Hrem].
    + rewrite handleKeyUp_empty by exact Hrem. cbn [snd].
      unfold sendStopCommand. destruct (negb (wsOpen c)); reflexivity.
    + rewrite handleKeyUp_nonempty by exact Hrem. cbn [snd].
      destruct (last_nonempty _ Hrem) as (k' & Hlast & Hin).
      rewrite Hlast. cbn [mbind option_bind].
      apply list_elem_of_filter in Hin as [_ Hin].
      rewrite Forall_forall in Harr.
      destruct (arrow_key_has_direction k' (Harr k' Hin)) as [d Hd].
      rewrite Hd. unfold sendMoveCommand.
      destruct (negb (wsOpen c)); reflexivity.
  - apply draw_no_undirected.
  - apply draw_no_undirected.
  - apply handleServerMessage_no_send.
Qed.

(** X5. Whatever events arrive after construction, every move intent
    and every move message written to the socket carries a direction:
    none is emitted with the direction undefined. *)
Theorem move_always_carries_direction (w h : Q) (es : list Event) :
  count isUndirectedMove (run (newGameClient w h) es).2 = 0%nat.
Proof.
  apply (run_count_zero inputWellFormed).
  - intros c e. apply inputWellFormed_dispatch.
  - intros c e. apply dispatch_no_undirected.
  - apply inputWellFormed_new.
Qed.

(** ** The viewport across events *)

Lemma updateViewport_twice (c : GameClient) :
  updateViewport (updateViewport c) = updateViewport c.
Proof.
  destruct c as [cv wi ww wh mid [me|] ap av vx vy ak cd s]; reflexivity.
Qed.

(** X6. [updateViewport] reads the local player, the canvas and the world
    size and writes the origin only, so applying it twice is the same as
    applying it once. *)
Theorem updateViewport_idempotent (c : GameClient) :
  updateViewport (updateViewport c) = updateViewport c.
Proof. apply updateViewport_twice. Qed.

Section OnScreen.
Local Open Scope Q_scope.

Lemma clamp_on_screen (p canvasDim world : Q) :
  0 <= canvasDim → 0 <= p → p <= world →
  0 <= p - Qmax 0 (Qmin (p - canvasDim / 2) (world - canvasDim))
  ∧ p - Qmax 0 (Qmin (p - canvasDim / 2) (world - canvasDim)) <= canvasDim.
Proof.
  intros Hc Hp Hw.
  assert (Hhalf : canvasDim == 2 * (canvasDim / 2)) by field.
  remember (canvasDim / 2) as half eqn:Eh. clear Eh.
  pose proof (Q.min_spec (p - half) (world - canvasDim)) as Hmin.
  remember (Qmin (p - half) (world - canvasDim)) as m eqn:Em.
  pose proof (Q.max_spec 0 m) as Hmax.
  remember (Qmax 0 m) as v eqn:Ev. clear Em Ev.
  destruct Hmin as [[Hlt Hm]|[Hle Hm]];
    destruct Hmax as [[Hlt' Hv]|[Hle' Hv]]; split; lra.
Qed.

End OnScreen.

(** X7. When the canvas has non-negative size and the local player is
    inside the world, [updateViewport] leaves the player on screen: the
    screen position lies between 0 and the canvas size on both axes,
    also where the origin was clamped. *)
Theorem updateViewport_keeps_player_on_screen (c : GameClient)
  (me : Player) :
  myPlayer c = Some me →
  (0 <= width (canvas c))%Q → (0 <= height (canvas c))%Q →
  (0 <= p_x me)%Q → (p_x me <= worldWidth c)%Q →
  (0 <= p_y me)%Q → (p_y me <= worldHeight c)%Q →
  let c' := updateViewport c in
  (0 <= p_x me - viewportX c')%Q ∧
  (p_x me - viewportX c' <= width (canvas c))%Q ∧
  (0 <= p_y me - viewportY c')%Q ∧
  (p_y me - viewportY c' <= height (canvas c))%Q.
Proof.
  intros Hme Hcw Hch Hx0 Hx1 Hy0 Hy1. unfold updateViewport.
  rewrite Hme. cbn.
  destruct (clamp_on_screen (p_x me) (width (canvas c)) (worldWidth c))
    as [Hxa Hxb]; try assumption.
  destruct (clamp_on_screen (p_y me) (height (canvas c)) (worldHeight c))
    as [Hya Hyb]; try assumption.
  repeat split; assumption.
Qed.

Lemma updateViewport_keeps_player_on_screen_witness :
  (0 <= p_x samplePlayer - viewportX (updateViewport sampleClient))%Q ∧
  (p_x samplePlayer - viewportX (updateViewport sampleClient) <= 800)%Q.
Proof.
  destruct (updateViewport_keeps_player_on_screen sampleClient samplePlayer)
    as (Ha & Hb & _); try reflexivity; try (vm_compute; congruence).
  split; [exact Ha|exact Hb].
Defined.

(** The fields [updateViewport] reads and writes are untouched by the
    other field updates. *)
Lemma updateViewport_set_allPlayers (v : gmap string Player)
  (c : GameClient) :
  updateViewport (set_allPlayers v c) = set_allPlayers v (updateViewport c).
Proof. unfold updateViewport. cbn. destruct (myPlayer c); reflexivity. Qed.

Lemma updateViewport_set_avatars (v : gmap string AvatarData)
  (c : GameClient) :
  updateViewport (set_avatars v c) = set_avatars v (updateViewport c).
Proof. unfold updateViewport. cbn. destruct (myPlayer c); reflexivity. Qed.

Lemma updateViewport_set_activeKeys (v : list string) (c : GameClient) :
  updateViewport (set_activeKeys v c) = set_activeKeys v (updateViewport c).
Proof. unfold updateViewport. cbn. destruct (myPlayer c); reflexivity. Qed.

Lemma updateViewport_set_currentDirection (v : option Direction)
  (c : GameClient) :
  updateViewport (set_currentDirection v c)
  = set_currentDirection v (updateViewport c).
Proof. unfold updateViewport. cbn. destruct (myPlayer c); reflexivity. Qed.

Lemma updateViewport_set_ws (v : option ReadyState) (c : GameClient) :
  updateViewport (set_ws v c) = set_ws v (updateViewport c).
Proof. unfold updateViewport. cbn. destruct (myPlayer c); reflexivity. Qed.

Lemma fresh_playersMovedStep (c : GameClient)
  (entry : string * option Player) :
  updateViewport c = c →
  updateViewport (playersMovedStep c entry) = playersMovedStep c entry.
Proof.
  intros Hc. unfold playersMovedStep. destruct entry.2 as [p|]; [|exact Hc].
  cbn zeta. destruct (decide _).
  - apply updateViewport_twice.
  - rewrite updateViewport_set_allPlayers, Hc. reflexivity.
Qed.

Lemma fresh_foldl_playersMovedStep (l : list (string * option Player))
  (c : GameClient) :
  updateViewport c = c →
  updateViewport (foldl playersMovedStep c l) = foldl playersMovedStep c l.
Proof.
  revert c. induction l as [|entry l IH]; intros c Hc; [exact Hc|].
  cbn [foldl]. apply IH, fresh_playersMovedStep, Hc.
Qed.

Lemma fresh_handleServerMessage (c : GameClient) (message : Message) :
  updateViewport c = c →
  updateViewport (handleServerMessage c message).1
  = (handleServerMessage c message).1.
Proof.
  intros Hc.
  destruct message as [[] id av pl err|pl|p a|id|tag];
    cbn [handleServerMessage fst]; try exact Hc.
  - apply updateViewport_twice.
  - apply fresh_foldl_playersMovedStep, Hc.
  - rewrite updateViewport_set_avatars, updateViewport_set_allPlayers, Hc.
    reflexivity.
  - rewrite updateViewport_set_allPlayers, Hc. reflexivity.
Qed.

Lemma fresh_handleKeyDown (c : GameClient) (k : string) :
  updateViewport c = c →
  updateViewport (handleKeyDown c k).1 = (handleKeyDown c k).1.
Proof.
  intros Hc. unfold handleKeyDown.
  destruct (negb (wsOpen c)); [exact Hc|].
  destruct (getDirectionFromKey k); [|exact Hc].
  cbn [fst].
  rewrite updateViewport_set_currentDirection, updateViewport_set_activeKeys,
    Hc.
  reflexivity.
Qed.

Lemma fresh_handleKeyUp (c : GameClient) (k : string) :
  updateViewport c = c →
  updateViewport (handleKeyUp c k).1 = (handleKeyUp c k).1.
Proof.
  intros Hc.
  destruct (decide (Set_delete k (activeKeys c) = [])) as [Hrem|Hrem].
  - rewrite handleKeyUp_empty by exact Hrem. cbn [fst].
    rewrite updateViewport_set_currentDirection,
      updateViewport_set_activeKeys, Hc.
    reflexivity.
  - rewrite handleKeyUp_nonempty by exact Hrem. cbn [fst].
    rewrite updateViewport_set_currentDirection,
      updateViewport_set_activeKeys, Hc.
    reflexivity.
Qed.

Lemma fresh_dispatch (c : GameClient) (e : Event) :
  updateViewport c = c → updateViewport (dispatch c e).1 = (dispatch c e).1.
Proof.
  intros Hc.
  destruct e as [k|k|w h| | |m|err| |]; cbn [dispatch fst]; try exact Hc.
  - destruct (isArrowKey k); [apply fresh_handleKeyDown|]; exact Hc.
  - destruct (isArrowKey k); [apply fresh_handleKeyUp|]; exact Hc.
  - apply updateViewport_twice.
  - rewrite updateViewport_set_ws, Hc. reflexivity.
  - apply fresh_handleServerMessage, Hc.
  - rewrite updateViewport_set_ws, Hc. reflexivity.
  - unfold connectToServer. rewrite updateViewport_set_ws, Hc. reflexivity.
Qed.

Lemma world_updateViewport (c : GameClient) :
  worldWidth (updateViewport c) = worldWidth c ∧
  worldHeight (updateViewport c) = worldHeight c.
Proof. unfold updateViewport. destruct (myPlayer c); split; reflexivity. Qed.

Lemma world_foldl_playersMovedStep (l : list (string * option Player))
  (c : GameClient) :
  worldWidth (foldl playersMovedStep c l) = worldWidth c ∧
  worldHeight (foldl playersMovedStep c l) = worldHeight c.
Proof.
  revert c. induction l as [|[k v] l IH]; intros c; [split; reflexivity|].
  cbn [foldl]. destruct (IH (playersMovedStep c (k, v))) as [-> ->].
  unfold playersMovedStep. cbn [fst snd].
  destruct v as [p|]; [|split; reflexivity].
  cbn zeta. destruct (decide _); [|split; reflexivity].
  destruct (world_updateViewport
              (set_myPlayer (Some p)
                 (set_allPlayers (<[k:=p]> (allPlayers c)) c))) as [-> ->].
  split; reflexivity.
Qed.

Lemma world_dispatch (c : GameClient) (e : Event) :
  worldWidth (dispatch c e).1 = worldWidth c ∧
  worldHeight (dispatch c e).1 = worldHeight c.
Proof.
  destruct e as [k|k|w h| | |m|err| |]; cbn [dispatch fst];
    try (split; reflexivity).
  - destruct (isArrowKey k); [|split; reflexivity].
    unfold handleKeyDown. destruct (negb (wsOpen c)); [split; reflexivity|].
    destruct (getDirectionFromKey k); split; reflexivity.
  - destruct (isArrowKey k); [|split; reflexivity].
    unfold handleKeyUp. cbv zeta. destruct (Nat.eqb _ _); split; reflexivity.
  - match goal with
    | |- context [updateViewport ?c'] =>
        destruct (world_updateViewport c') as [-> ->]
    end. split; reflexivity.
  - destruct m as [[] id av pl err|pl|p a|id|tag];
      cbn [handleServerMessage fst]; try (split; reflexivity).
    + match goal with
      | |- context [updateViewport ?c'] =>
          destruct (world_updateViewport c') as [-> ->]
      end. split; reflexivity.
    + apply world_foldl_playersMovedStep.
Qed.

(** X8. The viewport is never stale: whatever events arrive after
    construction, recomputing the viewport changes nothing, and the world
    keeps its size of 2048 by 2048. So whenever a local player is set,
    the origin is the clamped centering of that player on the current
    canvas and lies in [0, max(0, 2048 - canvas)] on each axis. *)
Theorem viewport_never_stale (w h : Q) (es : list Event) :
  let c := (run (newGameClient w h) es).1 in
  updateViewport c = c ∧
  worldWidth c = 2048%Q ∧ worldHeight c = 2048%Q ∧
  ∀ me, myPlayer c = Some me →
    viewportX c
    = Qmax 0 (Qmin (p_x me - width (canvas c) / 2)
                (2048 - width (canvas c))) ∧
    viewportY c
    = Qmax 0 (Qmin (p_y me - height (canvas c) / 2)
                (2048 - height (canvas c))) ∧
    (0 <= viewportX c ∧ viewportX c <= Qmax 0 (2048 - width (canvas c)))%Q ∧
    (0 <= viewportY c ∧ viewportY c <= Qmax 0 (2048 - height (canvas c)))%Q.
Proof.
  intros c.
  assert (Hinv : updateViewport c = c ∧
                 (worldWidth c = 2048%Q ∧ worldHeight c = 2048%Q)).
  { unfold c.
    apply (run_invariant
             (λ c, updateViewport c = c ∧
                   (worldWidth c = 2048%Q ∧ worldHeight c = 2048%Q))).
    - intros c0 e [Hfresh [Hw Hh]]. split; [apply fresh_dispatch, Hfresh|].
      destruct (world_dispatch c0 e) as [-> ->]. split; assumption.
    - split; [reflexivity|split; reflexivity]. }
  destruct Hinv as (Hfresh & Hw & Hh).
  split; [exact Hfresh|]. split; [exact Hw|]. split; [exact Hh|].
  intros me Hme.
  assert (Hx : viewportX c
               = Qmax 0 (Qmin (p_x me - width (canvas c) / 2)
                           (2048 - width (canvas c)))).
  { rewrite <- Hfresh at 1. unfold updateViewport. rewrite Hme. cbn.
    rewrite Hw. reflexivity. }
  assert (Hy : viewportY c
               = Qmax 0 (Qmin (p_y me - height (canvas c) / 2)
                           (2048 - height (canvas c)))).
  { rewrite <- Hfresh at 1. unfold updateViewport. rewrite Hme. cbn.
    rewrite Hh. reflexivity. }
  split; [exact Hx|]. split; [exact Hy|].
  rewrite Hx, Hy.
  repeat split; first [apply clamp_nonneg | apply clamp_upper].
Qed.

Lemma viewport_never_stale_witness :
  myPlayer joinedClient = Some samplePlayer ∧
  (0 <= viewportX joinedClient)%Q ∧
  (viewportX joinedClient <= Qmax 0 (2048 - 800))%Q.
Proof.
  split; [reflexivity|].
  destruct (viewport_never_stale 800 600
              [ws_onopen;
               ws_onmessage
                 (join_game true "p1" {[ "knight" := sampleAvatar ]}
                    {[ "p1" := samplePlayer; "p2" := westPlayer ]}
                    EmptyString)])
    as (_ & _ & _ & Hme).
  destruct (Hme samplePlayer eq_refl) as (_ & _ & [Hlo Hhi] & _).
  split; [exact Hlo|exact Hhi].
Defined.

(** ** Drawing *)

(** [drawAvatar] with the frame sequence named by one lookup: the east
    sequence for a player facing west, the facing's own otherwise. *)
Lemma drawAvatar_cases (c : GameClient) (player : Player)
  (avatarData : AvatarData) :
  drawAvatar c player avatarData =
  let avatarX := (p_x player - viewportX c)%Q in
  let avatarY := (p_y player - viewportY c)%Q in
  let direction :=
    if String.eqb (p_facing player) "west" then "east"
    else p_facing player in
  if Qltb avatarX (-50) || Qltb (width (canvas c) + 50) avatarX ||
     Qltb avatarY (-50) || Qltb (height (canvas c) + 50) avatarY
  then []
  else
    match a_frames avatarData !! direction
          ≫= (.!! default 0%nat (p_animationFrame player)) with
    | Some src =>
        if truthy src
        then [NewImage src (String.eqb (p_facing player) "west")
                avatarX avatarY (p_username player)]
        else []
    | None => []
    end.
Proof.
  unfold drawAvatar. cbv zeta. destruct (_ || _); [reflexivity|].
  destruct (String.eqb (p_facing player) "west").
  - destruct (a_frames avatarData !! "east"); reflexivity.
  - destruct (a_frames avatarData !! p_facing player); reflexivity.
Qed.

Lemma truthy_nonempty (s : string) : truthy s = true ↔ s ≠ EmptyString.
Proof.
  unfold truthy. destruct (String.eqb_spec s EmptyString) as [->|Hne];
    cbn; split; congruence.
Qed.



Lemma canvas_updateViewport (c : GameClient) :
  canvas (updateViewport c) = canvas c.
Proof. unfold updateViewport. destruct (myPlayer c); reflexivity. Qed.

(** X10. Right after [updateViewport], the local player's avatar is never
    culled: with a canvas of non-negative size and the player inside the
    world, [drawAvatar] requests the selected frame whenever that frame
    exists and has a non-empty source. *)
Theorem local_avatar_never_culled (c : GameClient) (me : Player)
  (avatarData : AvatarData) (src : string) :
  myPlayer c = Some me →
  (0 <= width (canvas c))%Q → (0 <= height (canvas c))%Q →
  (0 <= p_x me)%Q → (p_x me <= worldWidth c)%Q →
  (0 <= p_y me)%Q → (p_y me <= worldHeight c)%Q →
  a_frames avatarData
    !! (if String.eqb (p_facing me) "west" then "east" else p_facing me)
    ≫= (.!! default 0%nat (p_animationFrame me)) = Some src →
  src ≠ EmptyString →
  let c' := updateViewport c in
  drawAvatar c' me avatarData =
  [NewImage src (String.eqb (p_facing me) "west")
     (p_x me - viewportX c')%Q (p_y me - viewportY c')%Q (p_username me)].
Proof.
  intros Hme Hcw Hch Hx0 Hx1 Hy0 Hy1 Hframe Hsrc c'. subst c'.
  destruct (clamp_on_screen (p_x me) (width (canvas c)) (worldWidth c))
    as [Hxa Hxb]; try assumption.
  destruct (clamp_on_screen (p_y me) (height (canvas c)) (worldHeight c))
    as [Hya Hyb]; try assumption.
  rewrite drawAvatar_cases. cbv zeta. rewrite canvas_updateViewport.
  assert (Hvx : viewportX (updateViewport c)
                = Qmax 0 (Qmin (p_x me - width (canvas c) / 2)
                            (worldWidth c - width (canvas c))))
    by (unfold updateViewport; rewrite Hme; reflexivity).
  assert (Hvy : viewportY (updateViewport c)
                = Qmax 0 (Qmin (p_y me - height (canvas c) / 2)
                            (worldHeight c - height (canvas c))))
    by (unfold updateViewport; rewrite Hme; reflexivity).
  rewrite <- Hvx in Hxa, Hxb. rewrite <- Hvy in Hya, Hyb.
  assert (Hx1' : Qltb (p_x me - viewportX (updateViewport c)) (-50) = false)
    by (apply Qltb_false; lra).
  assert (Hx2' : Qltb (width (canvas c) + 50)
                   (p_x me - viewportX (updateViewport c)) = false)
    by (apply Qltb_false; lra).
  assert (Hy1' : Qltb (p_y me - viewportY (updateViewport c)) (-50) = false)
    by (apply Qltb_false; lra).
  assert (Hy2' : Qltb (height (canvas c) + 50)
                   (p_y me - viewportY (updateViewport c)) = false)
    by (apply Qltb_false; lra).
  rewrite Hx1', Hx2', Hy1', Hy2'. cbn [orb].
  rewrite Hframe. apply truthy_nonempty in Hsrc. rewrite Hsrc. reflexivity.
Qed.

Lemma local_avatar_never_culled_witness :
  drawAvatar (updateViewport sampleClient) samplePlayer sampleAvatar =
  [NewImage "s0.png" false
     (p_x samplePlayer - viewportX (updateViewport sampleClient))%Q
     (p_y samplePlayer - viewportY (updateViewport sampleClient))%Q "Joe"].
Proof.
  apply (local_avatar_never_culled sampleClient samplePlayer sampleAvatar
           "s0.png");
    try reflexivity; try (vm_compute; congruence).
Defined.

(** X11. [draw] requests an avatar image only once the world image object
    exists, and each image it requests is either the local player's own
    ([this.myPlayer]) or that of an entry of the player map whose [id]
    differs from the local id: an entry carrying the local id is skipped,
    so the local player is not drawn through the map. *)
Theorem draw_images_local_or_other (c : GameClient) (e : Effect) :
  e ∈ draw c → isNewImage e = true →
  worldImage c = true ∧
  ((∃ me avatarData,
      myPlayer c = Some me ∧ avatars c !! p_avatar me = Some avatarData ∧
      e ∈ drawAvatar c me avatarData) ∨
   (∃ key player avatarData,
      allPlayers c !! key = Some player ∧
      Some (p_id player) ≠ myPlayerId c ∧
      avatars c !! p_avatar player = Some avatarData ∧
      e ∈ drawAvatar c player avatarData)).
Proof.
  unfold draw. intros Hin Himg.
  apply elem_of_cons in Hin as [->|Hin]; [discriminate|].
  destruct (worldImage c); cbn [negb] in Hin; [|inversion Hin].
  split; [reflexivity|].
  apply elem_of_cons in Hin as [->|Hin]; [discriminate|].
  apply elem_of_cons in Hin as [->|Hin]; [discriminate|].
  apply elem_of_app in Hin as [Hin|Hin].
  - right. apply list_elem_of_In, in_flat_map in Hin
      as ([key player] & Hentry & Hin).
    apply list_elem_of_In in Hentry, Hin.
    apply elem_of_map_to_list in Hentry. cbn [snd] in Hin.
    destruct (decide _) as [Hother|]; [|inversion Hin].
    destruct (avatars c !! p_avatar player) as [avatarData|] eqn:Hav;
      [|inversion Hin].
    exists key, player, avatarData. auto.
  - left. destruct (myPlayer c) as [me|]; [|inversion Hin].
    destruct (avatars c !! p_avatar me) as [avatarData|] eqn:Hav;
      [|inversion Hin].
    exists me, avatarData. auto.
Qed.

Lemma draw_images_local_or_other_witness :
  worldImage joinedClient = true ∧
  NewImage "s0.png" false (1000 - viewportX joinedClient)
    (1000 - viewportY joinedClient) "Joe" ∈ draw joinedClient.
Proof.
  assert (Hin : NewImage "s0.png" false (1000 - viewportX joinedClient)
                  (1000 - viewportY joinedClient) "Joe" ∈ draw joinedClient).
  { vm_compute. do 3 right. left. }
  split; [|exact Hin].
  apply (draw_images_local_or_other joinedClient _ Hin). reflexivity.
Defined.

(** ** The store under server messages *)






Lemma set_allPlayers_same (c : GameClient) :
  set_allPlayers (allPlayers c) c = c.
Proof. destruct c. reflexivity. Qed.

(** X13. A [player_left] message for an id that has no entry in the
    player map leaves the client exactly as it was and still redraws
    once. *)
Theorem player_left_absent_is_noop (c : GameClient) (playerId : string) :
  allPlayers c !! playerId = None →
  (handleServerMessage c (player_left playerId)).1 = c ∧
  count isRedraw (handleServerMessage c (player_left playerId)).2 = 1%nat.
Proof.
  intros Habsent. cbn [handleServerMessage fst snd].
  split; [|apply draw_one_redraw].
  rewrite delete_id by exact Habsent. apply set_allPlayers_same.
Qed.

Lemma player_left_absent_is_noop_witness :
  allPlayers joinedClient !! "p7" = None ∧
  (handleServerMessage joinedClient (player_left "p7")).1 = joinedClient.
Proof.
  split; [reflexivity|].
  apply (player_left_absent_is_noop joinedClient "p7"). reflexivity.
Defined.

(** X14. Every message that the dispatch handles by changing the store
    (an accepted join, [players_moved], [player_joined], [player_left])
    redraws exactly once; a rejected join and a message with an unknown
    action do not redraw. *)
Theorem one_redraw_per_handled_message (c : GameClient) (message : Message) :
  count isRedraw (handleServerMessage c message).2
  = match message with
    | join_game false _ _ _ _ => 0%nat
    | other_action _ => 0%nat
    | _ => 1%nat
    end.
Proof.
  destruct message as [[] id av pl err|pl|p a|id|tag];
    cbn [handleServerMessage snd];
    rewrite ?count_app, ?draw_one_redraw; reflexivity.
Qed.

Lemma localEntryInSync_updateViewport (c : GameClient) :
  localEntryInSync c → localEntryInSync (updateViewport c).
Proof.
  unfold localEntryInSync.
  destruct c as [cv wi ww wh mid [me|] ap av vx vy ak cd s]; trivial.
Qed.

Lemma localEntryInSync_playersMovedStep (c : GameClient)
  (entry : string * option Player) :
  localEntryInSync c → localEntryInSync (playersMovedStep c entry).
Proof.
  intros Hsync. destruct entry as [k [p|]]; [|exact Hsync].
  unfold playersMovedStep. cbn [fst snd]. cbn zeta.
  destruct (decide _) as [Heq|Hne].
  - apply localEntryInSync_updateViewport. unfold localEntryInSync.
    cbn in *. rewrite <- Heq. cbn. rewrite lookup_insert_eq. reflexivity.
  - unfold localEntryInSync in *. cbn in *. rewrite Hsync.
    destruct (myPlayerId c) as [localId|]; [|reflexivity]. cbn.
    rewrite lookup_insert_ne by congruence. reflexivity.
Qed.

Lemma localEntryInSync_foldl (l : list (string * option Player))
  (c : GameClient) :
  localEntryInSync c → localEntryInSync (foldl playersMovedStep c l).
Proof.
  revert c. induction l as [|entry l IH]; intros c Hsync; [exact Hsync|].
  cbn [foldl]. apply IH, localEntryInSync_playersMovedStep, Hsync.
Qed.

(** X15. An accepted join leaves [this.myPlayer] equal to the entry of
    the player map at the local id, and every later message keeps the
    two equal, provided the message is not a [player_joined] or a
    [player_left] that names the local id itself. *)
Theorem local_entry_stays_in_sync (c : GameClient) :
  (∀ playerId avatars players error,
     localEntryInSync
       (handleServerMessage c
          (join_game true playerId avatars players error)).1) ∧
  (∀ message,
     (∀ player avatar, message = player_joined player avatar →
                       Some (p_id player) ≠ myPlayerId c) →
     (∀ playerId, message = player_left playerId →
                  Some playerId ≠ myPlayerId c) →
     localEntryInSync c →
     localEntryInSync (handleServerMessage c message).1).
Proof.
  assert (Hjoin : ∀ playerId avatars players error,
             localEntryInSync
               (handleServerMessage c
                  (join_game true playerId avatars players error)).1).
  { intros id av pl err. cbn [handleServerMessage fst].
    apply localEntryInSync_updateViewport. reflexivity. }
  split; [exact Hjoin|].
  intros message Hjoined Hleft Hsync.
  destruct message as [[] id av pl err|pl|p a|id|tag];
    cbn [handleServerMessage fst]; try exact Hsync.
  - apply (Hjoin id av pl err).
  - apply localEntryInSync_foldl, Hsync.
  - unfold localEntryInSync in *. cbn. rewrite Hsync.
    specialize (Hjoined p a eq_refl).
    destruct (myPlayerId c) as [localId|]; [|reflexivity]. cbn.
    rewrite lookup_insert_ne by congruence. reflexivity.
  - unfold localEntryInSync in *. cbn. rewrite Hsync.
    specialize (Hleft id eq_refl).
    destruct (myPlayerId c) as [localId|]; [|reflexivity]. cbn.
    rewrite lookup_delete_ne by congruence. reflexivity.
Qed.

Lemma local_entry_stays_in_sync_witness :
  localEntryInSync joinedClient ∧
  localEntryInSync
    (handleServerMessage joinedClient (players_moved samplePayload)).1.
Proof.
  destruct (local_entry_stays_in_sync connectedClient) as [Hjoin _].
  destruct (local_entry_stays_in_sync joinedClient) as [_ Hkeep].
  assert (Hsync : localEntryInSync joinedClient)
    by apply (Hjoin "p1" {[ "knight" := sampleAvatar ]}
                {[ "p1" := samplePlayer; "p2" := westPlayer ]} EmptyString).
  split; [exact Hsync|].
  apply Hkeep; [discriminate|discriminate|exact Hsync].
Defined.




(** ** The two revisions *)

Lemma forget_updateViewport (c : GameClient) :
  forget (updateViewport c) = Part000.updateViewport (forget c).
Proof.
  unfold updateViewport, Part000.updateViewport. cbn.
  destruct (myPlayer c); reflexivity.
Qed.

Lemma forget_playersMovedStep (c : GameClient)
  (entry : string * option Player) :
  forget (playersMovedStep c entry)
  = Part000Handlers.playersMovedStep (forget c) entry.
Proof.
  unfold playersMovedStep, Part000Handlers.playersMovedStep.
  destruct entry.2 as [p|]; [|reflexivity]. cbn zeta.
  cbn [myPlayerId set_allPlayers forget Part000.myPlayerId].
  destruct (decide _); [|reflexivity].
  rewrite forget_updateViewport. reflexivity.
Qed.

Lemma forget_foldl_playersMovedStep (l : list (string * option Player))
  (c : GameClient) :
  forget (foldl playersMovedStep c l)
  = foldl Part000Handlers.playersMovedStep (forget c) l.
Proof.
  revert c. induction l as [|entry l IH]; intros c; [reflexivity|].
  cbn [foldl]. rewrite IH, forget_playersMovedStep. reflexivity.
Qed.

(** X17. The current revision extends the earlier one: forgetting the
    player map and the input state, both revisions take every server
    message to the same client (same local id, local player, avatars
    and viewport). *)
Theorem handleServerMessage_extends_part000 (c : GameClient)
  (message : Message) :
  forget (handleServerMessage c message).1
  = (Part000Handlers.handleServerMessage (forget c) message).1.
Proof.
  destruct message as [[] id av pl err|pl|p a|id|tag];
    cbn [handleServerMessage Part000Handlers.handleServerMessage fst];
    try reflexivity.
  - rewrite forget_updateViewport. reflexivity.
  - apply forget_foldl_playersMovedStep.
Qed.

(** X18. Both revisions select and request avatar frames alike, and with
    no other player to draw the current [draw] performs exactly the
    operations of the earlier one. *)
Theorem draw_extends_part000 (c : GameClient) :
  (∀ player avatarData,
     Part000Handlers.drawAvatar (forget c) player avatarData
     = drawAvatar c player avatarData) ∧
  Part000Handlers.draw (forget c) = draw (set_allPlayers ∅ c).
Proof.
  split; [reflexivity|].
  unfold Part000Handlers.draw, draw. cbn.
  rewrite map_to_list_empty. reflexivity.
Qed.

(** ** Painting a loaded frame *)

Section AvatarSize.
Local Open Scope Q_scope.

Lemma Qltb_true (a b : Q) : Qltb a b = true ↔ a < b.
Proof.
  unfold Qltb. rewrite negb_true_iff. split.
  - intros Hb. apply Qnot_le_lt. intros Hle.
    apply Qle_bool_iff in Hle. congruence.
  - intros Hlt. destruct (Qle_bool b a) eqn:Hb; [|reflexivity].
    apply Qle_bool_iff in Hb. exfalso. revert Hlt. apply Qle_not_lt, Hb.
Qed.

(** The size [onload] gives a frame of [imgWidth] by [imgHeight]. *)
Lemma avatar_size (imgWidth imgHeight : Q) :
  0 < imgWidth → 0 < imgHeight →
  let aspectRatio := imgWidth / imgHeight in
  let size :=
    if Qltb aspectRatio 1 then (32 * aspectRatio, 32)
    else (32, 32 / aspectRatio) in
  0 < size.1 ∧ size.1 <= 32 ∧ 0 < size.2 ∧ size.2 <= 32 ∧
  (size.1 == 32 ∨ size.2 == 32) ∧
  size.1 * imgHeight == size.2 * imgWidth.
Proof.
  intros Hw Hh aspectRatio size.
  assert (Hr : 0 < aspectRatio).
  { apply Qlt_shift_div_l; [exact Hh|]. lra. }
  unfold size. destruct (Qltb aspectRatio 1) eqn:Hlt; cbn [fst snd].
  - apply Qltb_true in Hlt.
    split; [lra|]. split; [lra|]. split; [lra|]. split; [lra|].
    split; [right; reflexivity|].
    unfold aspectRatio. field. lra.
  - apply Qltb_false in Hlt.
    assert (Hpos : 0 < 32 / aspectRatio).
    { apply Qlt_shift_div_l; [exact Hr|]. lra. }
    assert (Hle : 32 / aspectRatio <= 32).
    { apply Qle_shift_div_r; [exact Hr|]. lra. }
    split; [lra|]. split; [lra|]. split; [exact Hpos|].
    split; [exact Hle|]. split; [left; reflexivity|].
    unfold aspectRatio. field. split; lra.
Qed.

End AvatarSize.

(** X19. For a loaded frame of positive width and height, [onload] draws
    the image in a size that fits the 32 by 32 box, touches it on the
    longer side and keeps the frame's proportions. *)
Theorem onload_fits_frame_in_box (src : string) (mirrored : bool)
  (avatarX avatarY : Q) (username : string) (imgWidth imgHeight : Q) :
  (0 < imgWidth)%Q → (0 < imgHeight)%Q →
  ∀ src' x y w h,
    DrawImage src' x y w h
    ∈ avatarOnload src mirrored avatarX avatarY username imgWidth imgHeight →
    src' = src ∧
    (0 < w ∧ w <= 32 ∧ 0 < h ∧ h <= 32 ∧ (w == 32 ∨ h == 32) ∧
     w * imgHeight == h * imgWidth)%Q.
Proof.
  intros Hw Hh src' x y w h Hin.
  pose proof (avatar_size imgWidth imgHeight Hw Hh) as Hsize.
  cbv zeta in Hsize. unfold avatarOnload in Hin. cbv zeta in Hin.
  destruct (if Qltb (imgWidth / imgHeight) 1
            then ((32 * (imgWidth / imgHeight))%Q, 32%Q)
            else (32%Q, (32 / (imgWidth / imgHeight))%Q))
    as [avatarWidth avatarHeight].
  cbn [fst snd] in Hsize.
  destruct mirrored; cbn [app] in Hin;
    repeat (apply elem_of_cons in Hin as [Hin|Hin]; [try discriminate|]);
    try (inversion Hin; fail);
    injection Hin as -> _ _ -> ->; (split; [reflexivity|exact Hsize]).
Qed.

Lemma onload_fits_frame_in_box_witness :
  DrawImage "e1.png" (- (100) - 32 / 2) (100 - (32 / (64 / 32)) / 2) 32
    (32 / (64 / 32)) ∈ sampleOnload ∧
  (32 / (64 / 32) <= 32)%Q.
Proof.
  assert (Hin : DrawImage "e1.png" (- (100) - 32 / 2)
                  (100 - (32 / (64 / 32)) / 2) 32 (32 / (64 / 32))
                ∈ sampleOnload).
  { unfold sampleOnload, avatarOnload. cbn. do 2 right. left. }
  split; [exact Hin|].
  destruct (onload_fits_frame_in_box "e1.png" true 100 100 "Ann" 64 32
              eq_refl eq_refl _ _ _ _ _ Hin) as (_ & _ & _ & _ & Hh & _).
  exact Hh.
Defined.

(** X20. On a canvas in its initial state the [onload] of a frame of
    positive size paints three things in this order: the image, the
    stroked name, the filled name. The image is centred on the avatar's
    screen position, with its left and right edges swapped exactly when
    it is mirrored; the name is not mirrored, is anchored at the avatar's
    x and 5 units above the image's top edge, and is stroked before it
    is filled. *)
Theorem onload_paints_centred (src : string) (mirrored : bool)
  (avatarX avatarY : Q) (username : string) (imgWidth imgHeight : Q) :
  (0 < imgWidth)%Q → (0 < imgHeight)%Q →
  ∃ x1 x2 y1 y2 tx ty,
    paint [] (1%Q, 1%Q)
      (avatarOnload src mirrored avatarX avatarY username imgWidth imgHeight)
    = [PaintedImage src x1 x2 y1 y2;
       PaintedStroke username tx ty false;
       PaintedFill username tx ty false] ∧
    (x1 + x2 == 2 * avatarX)%Q ∧ (y1 + y2 == 2 * avatarY)%Q ∧
    (y1 < y2)%Q ∧
    (if mirrored then (x2 < x1)%Q else (x1 < x2)%Q) ∧
    (tx == avatarX)%Q ∧ (ty == y1 - 5)%Q.
Proof.
  intros Hw Hh.
  pose proof (avatar_size imgWidth imgHeight Hw Hh) as Hsize.
  cbv zeta in Hsize. unfold avatarOnload. cbv zeta.
  destruct (if Qltb (imgWidth / imgHeight) 1
            then ((32 * (imgWidth / imgHeight))%Q, 32%Q)
            else (32%Q, (32 / (imgWidth / imgHeight))%Q))
    as [avatarWidth avatarHeight].
  cbn [fst snd] in Hsize. destruct Hsize as (Hw0 & _ & Hh0 & _).
  assert (Hhw : (avatarWidth == 2 * (avatarWidth / 2))%Q) by field.
  assert (Hhh : (avatarHeight == 2 * (avatarHeight / 2))%Q) by field.
  destruct mirrored; cbn [app paint fst snd];
    change (Qltb 1 0) with false;
    do 6 eexists; (split; [reflexivity|]);
    remember (avatarWidth / 2)%Q as hw; remember (avatarHeight / 2)%Q as hh;
    repeat split; lra.
Qed.

Lemma onload_paints_centred_witness :
  ∃ x1 x2 y1 y2 tx ty,
    paint [] (1%Q, 1%Q) sampleOnload
    = [PaintedImage "e1.png" x1 x2 y1 y2;
       PaintedStroke "Ann" tx ty false;
       PaintedFill "Ann" tx ty false] ∧
    (x1 + x2 == 2 * 100)%Q ∧ (x2 < x1)%Q.
Proof.
  destruct (onload_paints_centred "e1.png" true 100 100 "Ann" 64 32)
    as (x1 & x2 & y1 & y2 & tx & ty & Hpaint & Hx & _ & _ & Hflip & _);
    [reflexivity|reflexivity|].
  exists x1, x2, y1, y2, tx, ty. auto.
Defined.

(** ** Connection life cycle *)

Lemma draw_no_join (c : GameClient) : count isJoinRequest (draw c) = 0%nat.
Proof. apply (count_draw isJoinRequest); reflexivity. Qed.

Lemma dispatch_join_count (c : GameClient) (e : Event) :
  count isJoinRequest (dispatch c e).2
  = match e with ws_onopen => 1%nat | _ => 0%nat end.
Proof.
  destruct e as [k|k|w h| | |m|err| |]; cbn [dispatch snd];
    try reflexivity.
  - destruct (isArrowKey k); [|reflexivity].
    unfold handleKeyDown. destruct (negb (wsOpen c)); [reflexivity|].
    destruct (getDirectionFromKey k); [|reflexivity].
    cbn [snd]. unfold sendMoveCommand.
    destruct (negb (wsOpen _)); reflexivity.
  - destruct (isArrowKey k); [|reflexivity].
    unfold handleKeyUp, sendStopCommand, sendMoveCommand. cbv zeta.
    destruct (Nat.eqb _ _); cbn [snd]; destruct (negb (wsOpen _));
      reflexivity.
  - apply draw_no_join.
  - apply draw_no_join.
  - destruct m as [[] id av pl err|pl|p a|id|tag];
      cbn [handleServerMessage snd];
      rewrite ?count_app, ?draw_no_join; reflexivity.
Qed.

(** X21. The join request is written once each time the socket opens,
    the reopening after a reconnect included, and at no other time:
    over any list of events the number of join requests written equals
    the number of [onopen] events. *)
Theorem one_join_request_per_open (c : GameClient) (es : list Event) :
  count isJoinRequest (run c es).2 = opens es.
Proof.
  revert c. induction es as [|e es IH]; intros c; [reflexivity|].
  rewrite run_cons. cbn [snd]. rewrite count_app, IH, dispatch_join_count.
  unfold opens. cbn [List.filter]. destruct e; reflexivity.
Qed.

(** X22. A [player_left] message that names the local id removes the
    local entry from the player map but leaves [this.myPlayer] and the
    local id in place, so the redraw it triggers still requests the local
    player's avatar exactly as before. *)
Theorem player_left_local_keeps_drawing (c : GameClient) (localId : string)
  (me : Player) (avatarData : AvatarData) :
  myPlayerId c = Some localId →
  myPlayer c = Some me →
  avatars c !! p_avatar me = Some avatarData →
  worldImage c = true →
  let r := handleServerMessage c (player_left localId) in
  allPlayers r.1 !! localId = None ∧
  myPlayerId r.1 = Some localId ∧ myPlayer r.1 = Some me ∧
  ∀ e, e ∈ drawAvatar c me avatarData → e ∈ r.2.
Proof.
  intros Hid Hme Hav Himg. cbn [handleServerMessage fst snd].
  split; [apply lookup_delete_eq|]. split; [exact Hid|].
  split; [exact Hme|].
  intros e He. unfold draw. cbn [worldImage myPlayer avatars set_allPlayers].
  rewrite Himg, Hme, Hav. cbn [negb].
  right. right. right. apply elem_of_app. right. exact He.
Qed.

Lemma player_left_local_keeps_drawing_witness :
  allPlayers (handleServerMessage joinedClient (player_left "p1")).1 !! "p1"
  = None ∧
  NewImage "s0.png" false (1000 - viewportX joinedClient)
    (1000 - viewportY joinedClient) "Joe"
  ∈ (handleServerMessage joinedClient (player_left "p1")).2.
Proof.
  destruct (player_left_local_keeps_drawing joinedClient "p1" samplePlayer
              sampleAvatar) as (Hgone & _ & _ & Hdrawn);
    try reflexivity.
  split; [exact Hgone|]. apply Hdrawn. vm_compute. left.
Defined.
